(** * DocuQuery: the text chunker and the upload / extract / chunk endpoints

    A shallow embedding of [main.py].  Python integers are [Z], a Python
    [str] is a list of characters, and a raised exception is an error
    value.  The file system with [pathlib], PyPDF2 and the text of foreign
    exceptions are parameters; a small file system stands in for concrete
    runs.  The [while] loop of [chunk_text] is run with fuel:
    [None] means that the loop is still running when the fuel is spent. *)

From Stdlib Require Import ZArith String Ascii DecimalString DecimalNat.
From stdpp Require Import base tactics option list gmap strings.

Local Open Scope Z_scope.

(** ** Python sequence slicing *)

Module PySlice.
Section Slice.
Context {A : Type}.

(** Index adjustment of [s[i:j]] for step 1: a negative index counts
    from the end, and the result is clipped to [0 .. len]. *)
Definition adjust_index (len i : Z) : Z :=
  if i <? 0 then (if i + len <? 0 then 0 else i + len)
  else (if len <=? i then len else i).

(** [s[start:stop]]. *)
Definition slice (s : list A) (start stop : Z) : list A :=
  let len := Z.of_nat (length s) in
  let lo := adjust_index len start in
  let hi := adjust_index len stop in
  take (Z.to_nat (hi - lo)) (drop (Z.to_nat lo) s).
End Slice.
End PySlice.

(** ** The chunker *)

Module Chunker.
Import PySlice.

Record Chunk {Char : Type} := mkChunk {
  chunk_id : Z;
  text : list Char;
  start_char : Z;
  end_char : Z;
  num_chars : Z
}.
Global Arguments Chunk : clear implicits.
Global Arguments mkChunk {Char}.

Section ChunkText.
Context {Char : Type}.

(** [len(text)] *)
Definition len (s : list Char) : Z := Z.of_nat (length s).

(** The local variables of [chunk_text]. *)
Record locals := mkLocals {
  chunks : list (Chunk Char);
  start : Z;
  next_id : Z      (* the local variable [chunk_id] *)
}.

Definition initial : locals :=
  {| chunks := []; start := 0; next_id := 0 |}.

(** The dictionary built by one iteration of the loop. *)
Definition make_chunk (txt : list Char) (chunk_size : Z)
    (chunk_id start : Z) : Chunk Char :=
  let end_ := start + chunk_size in
  let piece := slice txt start end_ in
  {| chunk_id := chunk_id;
     text := piece;
     start_char := start;
     end_char := if end_ <? len txt then end_ else len txt;
     num_chars := len piece |}.

(** The loop test [start < len(text)]. *)
Definition loop_test (txt : list Char) (st : locals) : bool :=
  start st <? len txt.

(** The loop body. *)
Definition loop_body (txt : list Char) (chunk_size overlap : Z)
    (st : locals) : locals :=
  let end_ := start st + chunk_size in
  let chunk := make_chunk txt chunk_size (next_id st) (start st) in
  {| chunks := chunks st ++ [chunk];
     start := end_ - overlap;
     next_id := next_id st + 1 |}.

(** [while start < len(text): body], with at most [fuel] iterations. *)
Fixpoint while (fuel : nat) (txt : list Char) (chunk_size overlap : Z)
    (st : locals) : option locals :=
  if loop_test txt st then
    match fuel with
    | O => None
    | S fuel' =>
        while fuel' txt chunk_size overlap (loop_body txt chunk_size overlap st)
    end
  else Some st.

Definition chunk_text (fuel : nat) (txt : list Char)
    (chunk_size overlap : Z) : option (list (Chunk Char)) :=
  chunks <$> while fuel txt chunk_size overlap initial.

(** [chunk_text] returns [cs]: some number of iterations is enough. *)
Definition returns (txt : list Char) (chunk_size overlap : Z)
    (cs : list (Chunk Char)) : Prop :=
  ∃ fuel, chunk_text fuel txt chunk_size overlap = Some cs.

(** [chunk_text] never returns: the loop outlives every fuel. *)
Definition diverges (txt : list Char) (chunk_size overlap : Z) : Prop :=
  ∀ fuel, chunk_text fuel txt chunk_size overlap = None.

(** *** Auxiliary notions for the proofs *)

(** The locals after [n] iterations of the body. *)
Definition after (txt : list Char) (chunk_size overlap : Z)
    (n : nat) (st : locals) : locals :=
  Nat.iter n (loop_body txt chunk_size overlap) st.

(** The chunk that iteration [k] appends when every iteration moves
    [start] by [chunk_size - overlap]. *)
Definition nth_chunk (txt : list Char) (chunk_size overlap : Z)
    (k : nat) : Chunk Char :=
  make_chunk txt chunk_size (Z.of_nat k) (Z.of_nat k * (chunk_size - overlap)).

(** The least [n] with [n * (chunk_size - overlap) >= len(text)]. *)
Definition num_chunks (txt : list Char) (chunk_size overlap : Z) : nat :=
  Z.to_nat ((len txt + (chunk_size - overlap) - 1) / (chunk_size - overlap)).

(** The reading of [num_chars] under which it equals
    [end_char - start_char] only when the whole window fits. *)
Definition range_length_only_when_window_fits (txt : list Char)
    (chunk_size : Z) (c : Chunk Char) : Prop :=
  num_chars c = end_char c - start_char c →
  start_char c + chunk_size ≤ len txt.

(** The characters of a chunk that the next chunk does not repeat: its
    first [chunk_size - overlap] ones. *)
Definition fresh_part (chunk_size overlap : Z) (c : Chunk Char) : list Char :=
  take (Z.to_nat (chunk_size - overlap)) (text c).

(** Some chunk of [cs] has the offset [i] in its range. *)
Definition covered (cs : list (Chunk Char)) (i : Z) : Prop :=
  ∃ c, c ∈ cs ∧ start_char c ≤ i < end_char c.
End ChunkText.

Global Arguments locals : clear implicits.

(** A Python string literal as a list of characters. *)
Definition str (s : string) : list ascii := list_ascii_of_string s.

(** The [(text, start_char, end_char)] triple of a chunk. *)
Definition triple (c : Chunk ascii) : string * Z * Z :=
  (string_of_list_ascii (text c), start_char c, end_char c).

End Chunker.

(** ** The HTTP endpoints *)

Module Api.
Import PySlice.

Local Open Scope string_scope.
Local Open Scope Z_scope.

(** *** Python string helpers *)

(** [s.endswith(suffix)] *)
Definition endswith (s suffix : string) : bool :=
  let n := String.length s in
  let m := String.length suffix in
  (m <=? n)%nat && String.eqb (substring (n - m) m s) suffix.

(** [s.replace(old, new)] for one-character [old] and [new]. *)
Fixpoint replace (old new : ascii) (s : string) : string :=
  match s with
  | EmptyString => EmptyString
  | String c s' =>
      String (if Ascii.eqb c old then new else c) (replace old new s')
  end.

(** [str.isspace] on the code points below 256. *)
Definition isspace (c : ascii) : bool :=
  let n := nat_of_ascii c in
  ((9 <=? n) && (n <=? 13) || (28 <=? n) && (n <=? 32)
   || (n =? 133) || (n =? 160))%nat.

(** [len(s.split())]: the number of maximal runs of non-space characters.
    [inword] tells whether the previous character was part of a word. *)
Fixpoint count_words (inword : bool) (s : string) : Z :=
  match s with
  | EmptyString => 0
  | String c s' =>
      if isspace c then count_words false s'
      else (if inword then 0 else 1) + count_words true s'
  end.

(** [str(n)] for a non-negative integer. *)
Definition decimal (n : nat) : string :=
  NilEmpty.string_of_uint (Nat.to_uint n).

(** [s[:n]] *)
Definition prefix_slice (s : string) (n : Z) : string :=
  string_of_list_ascii (slice (list_ascii_of_string s) 0 n).

Definition strlen (s : string) : Z := Z.of_nat (String.length s).

(** *** Exceptions and outcomes *)

(** What the operating system refuses. *)
Inductive os_error :=
  | FileNotFoundError (path : string)     (* no such file or directory *)
  | IsADirectoryError (path : string)     (* the path is a directory *)
  | OtherOSError (info : string).         (* any other refusal *)

Inductive exception :=
  | OSError (e : os_error)                     (* raised by a file operation *)
  | PdfReadError (info : string)               (* raised inside PyPDF2 *)
  | HTTPException (status_code : Z) (detail : string).

Inductive outcome (A : Type) :=
  | Return (a : A)
  | Raise (e : exception).
Global Arguments Return {A}.
Global Arguments Raise {A}.

(** The HTTP status the framework answers with. *)
Definition status_of {A} (r : outcome A) : Z :=
  match r with
  | Return _ => 200
  | Raise (HTTPException code _) => code
  | Raise _ => 500
  end.

(** *** Records of the responses *)

Record ExtractionResult := mkExtractionResult {
  full_text : string;
  num_pages : Z;
  num_words : Z;
  num_chars : Z
}.

Record ExtractionSummary := mkExtractionSummary {
  sum_num_pages : Z;
  sum_num_words : Z;
  sum_num_chars : Z;
  text_preview : string
}.

Record UploadResponse := mkUploadResponse {
  up_message : string;
  up_filename : string;
  size_kb : Z;           (* in hundredths: [round(_, 2)] keeps two decimals *)
  saved_path : string;
  up_extraction : ExtractionSummary;
  up_status : string
}.

Record ExtractResponse := mkExtractResponse {
  ex_filename : string;
  ex_extraction : ExtractionResult;
  ex_status : string
}.

Record ChunkResponse := mkChunkResponse {
  ch_filename : string;
  total_chunks : Z;
  ch_chunk_size : Z;
  ch_overlap : Z;
  original_length : Z;
  ch_chunks : list (Chunker.Chunk ascii);
  ch_status : string
}.

(** The uploaded file as the framework hands it over. *)
Record UploadFile := mkUploadFile {
  filename : string;
  size : option Z;       (* [file.size], an [int] or [None] *)
  file : list Byte.byte  (* the payload read from [file.file] *)
}.

(** The multipart parser counts the bytes it receives into [size]. *)
Definition parsed_upload (f : UploadFile) : Prop :=
  size f = Some (Z.of_nat (length (file f))).

(** *** The file system *)

(** The operating system and [pathlib], outside libraries: the states of
    the file system and the file operations the endpoints call.  Each
    operation answers or raises. *)
Record FileSystem := mkFileSystem {
  files : Type;
  (** [str(Path(dir) / name)] *)
  path_div : string → string → string;
  (** [Path.exists()] *)
  path_exists : files → string → os_error + bool;
  (** [with path.open("wb") as buffer: shutil.copyfileobj(src, buffer)]:
      the state it leaves, and the exception when it raises. *)
  write_file : files → string → list Byte.byte → files * option os_error;
  (** [open(path, "rb")] and the bytes read from it. *)
  read_file : files → string → os_error + list Byte.byte;
  (** [os.path.getsize(path)] *)
  getsize : files → string → os_error + Z
}.

(** What is expected of a file system in which nobody else writes: a
    file that was written without an exception is there, and has the
    bytes and the size that were written. *)
Record well_behaved (os : FileSystem) : Prop := mkWellBehaved {
  read_after_write : ∀ fs path data fs',
    write_file os fs path data = (fs', None) →
    read_file os fs' path = inr data;
  getsize_after_write : ∀ fs path data fs',
    write_file os fs path data = (fs', None) →
    getsize os fs' path = inr (Z.of_nat (length data));
  exists_after_write : ∀ fs path data fs',
    write_file os fs path data = (fs', None) →
    path_exists os fs' path = inr true
}.

Definition UPLOAD_DIR : string := "uploads".

(** The nearest integer to [n / d] for [d > 0], ties to the even one. *)
Definition round_half_even (n d : Z) : Z :=
  let q := n / d in
  let r := n mod d in
  if 2 * r <? d then q
  else if d <? 2 * r then q + 1
  else if Z.even q then q else q + 1.

(** [round(bytes / 1024, 2)], in hundredths. *)
Definition round_kb (bytes : Z) : Z := round_half_even (bytes * 100) 1024.

Section Endpoints.
Variable os : FileSystem.
(** PyPDF2, an outside library: the texts of the pages of a PDF, or the
    exception it raises on bytes it cannot read. *)
Variable pdf_reader : list Byte.byte → exception + list string.
(** [str(e)] of an exception, as the installed libraries print it. *)
Variable str_exn : exception → string.

(** The loop over the pages: [page_num] counts from [first]. *)
Fixpoint join_pages (first : nat) (pages : list string) : string :=
  match pages with
  | [] => ""
  | page_text :: rest =>
      (String "010" ("----Page " ++ decimal (first + 1) ++ "----"
                     ++ String "010" "")) ++ page_text
      ++ join_pages (S first) rest
  end.

Definition extract_text_from_pdf (fs : files os) (pdf_path : string)
    : outcome ExtractionResult :=
  let attempt :=
    match read_file os fs pdf_path with
    | inl e => inl (OSError e)
    | inr bytes => pdf_reader bytes
    end in
  match attempt with
  | inr pages =>
      let full_text := join_pages 0 pages in
      Return {| full_text := full_text;
                num_pages := Z.of_nat (length pages);
                num_words := count_words false full_text;
                num_chars := strlen full_text |}
  | inl e =>
      Raise (HTTPException 500
               ("Error extracting text from PDF: " ++ str_exn e))
  end.

(** The [except Exception as e] clause of [upload_pdf]. *)
Definition upload_failed {A} (e : exception) : outcome A :=
  Raise (HTTPException 500 ("Error uploading file: " ++ str_exn e)).

(** [POST /upload]: the state of the file system it leaves, and the
    answer. *)
Definition upload_pdf (fs : files os) (f : UploadFile)
    : files os * outcome UploadResponse :=
  if negb (endswith (filename f) ".pdf") then
    (fs, Raise (HTTPException 400
                  "Only PDF files are allowed. Please upload a .pdf file."))
  else if bool_decide (size f = Some 0) then
    (fs, Raise (HTTPException 400
                  "Empty file uploaded. Please upload a valid PDF."))
  else
    let safe_filename := replace " " "_" (filename f) in
    let file_path := path_div os UPLOAD_DIR safe_filename in
    match write_file os fs file_path (file f) with
    | (fs', Some e) => (fs', upload_failed (OSError e))
    | (fs', None) =>
        match extract_text_from_pdf fs' file_path with
        | Raise e => (fs', upload_failed e)
        | Return extraction_result =>
            match getsize os fs' file_path with
            | inl e => (fs', upload_failed (OSError e))
            | inr file_size =>
                let text_preview :=
                  prefix_slice (full_text extraction_result) 500 in
                let text_preview :=
                  if 500 <? strlen (full_text extraction_result)
                  then text_preview ++ "..." else text_preview in
                (fs', Return
                   {| up_message := "PDF uploaded and processed successfully!";
                      up_filename := safe_filename;
                      size_kb := round_kb file_size;
                      saved_path := file_path;
                      up_extraction :=
                        {| sum_num_pages := num_pages extraction_result;
                           sum_num_words := num_words extraction_result;
                           sum_num_chars := num_chars extraction_result;
                           text_preview := text_preview |};
                      up_status := "success" |})
            end
        end
    end.

(** [GET /extract/{filename}]; an exception of [exists()] is not caught. *)
Definition extract_text (fs : files os) (filename : string)
    : outcome ExtractResponse :=
  let file_path := path_div os UPLOAD_DIR filename in
  match path_exists os fs file_path with
  | inl e => Raise (OSError e)
  | inr false =>
      Raise (HTTPException 404
               ("File '" ++ filename ++ "' not found. Please upload it first."))
  | inr true =>
      if negb (endswith filename ".pdf") then
        Raise (HTTPException 400 "File must be a PDF.")
      else
        match extract_text_from_pdf fs file_path with
        | Raise e => Raise e
        | Return extraction_result =>
            Return {| ex_filename := filename;
                      ex_extraction := extraction_result;
                      ex_status := "success" |}
        end
  end.

(** [GET /chunk/{filename}]; [None] when [chunk_text] is still looping
    after [fuel] iterations. *)
Definition chunk_pdf (fuel : nat) (fs : files os)
    (filename : string) (chunk_size overlap : Z)
    : option (outcome ChunkResponse) :=
  let file_path := path_div os UPLOAD_DIR filename in
  match path_exists os fs file_path with
  | inl e => Some (Raise (OSError e))
  | inr false =>
      Some (Raise (HTTPException 404
               ("File '" ++ filename ++ "' not found. Please upload it first.")))
  | inr true =>
      if negb (endswith filename ".pdf") then
        Some (Raise (HTTPException 400 "File must be a PDF."))
      else
        match extract_text_from_pdf fs file_path with
        | Raise e => Some (Raise e)
        | Return extraction_result =>
            let full_text := full_text extraction_result in
            chunks ← Chunker.chunk_text fuel (list_ascii_of_string full_text)
                       chunk_size overlap;
            Some (Return
              {| ch_filename := filename;
                 total_chunks := Z.of_nat (length chunks);
                 ch_chunk_size := chunk_size;
                 ch_overlap := overlap;
                 original_length := num_chars extraction_result;
                 ch_chunks := chunks;
                 ch_status := "success" |})
        end
  end.
End Endpoints.

(** *** Stand-ins for the outside libraries, for concrete runs *)

(** A bytes literal. *)
Definition bytes (s : string) : list Byte.byte := list_byte_of_string s.

(** A reader that finds one page in anything that starts with the PDF
    header and rejects everything else, as PyPDF2 rejects bytes that are
    no PDF. *)
Definition sample_pdf_reader (data : list Byte.byte)
    : exception + list string :=
  match data with
  | Byte.x25 :: Byte.x50 :: Byte.x44 :: Byte.x46 :: Byte.x2d :: _ =>
      inr ["Hello world"]
  | _ => inl (PdfReadError "EOF marker not found")
  end.

Definition sample_str_exn (e : exception) : string :=
  match e with
  | OSError (FileNotFoundError path) =>
      "[Errno 2] No such file or directory: '" ++ path ++ "'"
  | OSError (IsADirectoryError path) =>
      "[Errno 21] Is a directory: '" ++ path ++ "'"
  | OSError (OtherOSError info) => info
  | PdfReadError info => info
  | HTTPException code detail => decimal (Z.to_nat code) ++ ": " ++ detail
  end.

(** A small POSIX file system: the root holds the directory [app], the
    working directory, which holds the directory [uploads]; there are no
    other directories, and regular files are kept by the list of the
    names on the way from the root. *)

(** [s.split(sep)]; [cur] collects the characters of the current part. *)
Fixpoint split_from (sep : ascii) (cur : string) (s : string) : list string :=
  match s with
  | EmptyString => [cur]
  | String c s' =>
      if Ascii.eqb c sep then cur :: split_from sep "" s'
      else split_from sep (cur ++ String c "") s'
  end.

(** The parts of a path between the slashes, without the empty ones. *)
Definition path_parts (p : string) : list string :=
  filter (λ part, part ≠ "") (split_from "/" "" p).

Fixpoint join_parts (parts : list string) : string :=
  match parts with
  | [] => ""
  | [part] => part
  | part :: rest => part ++ "/" ++ join_parts rest
  end.

Definition is_absolute (p : string) : bool :=
  match p with String "/" _ => true | _ => false end.

(** [str(Path(dir) / name)] for a relative [dir]: [pathlib] drops the empty
    parts and the [.] parts of [name] and keeps its [..] parts; an absolute
    [name] replaces [dir]. *)
Definition sample_path_div (dir name : string) : string :=
  let parts := filter (λ part, part ≠ ".") (path_parts name) in
  if is_absolute name then "/" ++ join_parts parts
  else match parts with
       | [] => dir
       | _ => dir ++ "/" ++ join_parts parts
       end.

Definition sample_is_dir (at_ : list string) : bool :=
  bool_decide (at_ ∈ [[]; ["app"]; ["app"; "uploads"]]).

(** Following the parts of a path from the directory [at_]: every part
    but the last must lead through a directory. *)
Fixpoint sample_walk (at_ : list string) (parts : list string)
    : option (list string) :=
  match parts with
  | [] => Some at_
  | part :: rest =>
      if sample_is_dir at_ then
        if String.eqb part ".." then sample_walk (removelast at_) rest
        else if String.eqb part "." then sample_walk at_ rest
        else sample_walk (at_ ++ [part]) rest
      else None
  end.

Definition sample_resolve (p : string) : option (list string) :=
  sample_walk (if is_absolute p then [] else ["app"]) (path_parts p).

Definition sample_os : FileSystem :=
  {| files := gmap (list string) (list Byte.byte);
     path_div := sample_path_div;
     path_exists := λ fs p,
       inr match sample_resolve p with
           | Some at_ => sample_is_dir at_ || bool_decide (is_Some (fs !! at_))
           | None => false
           end;
     write_file := λ fs p data,
       match sample_resolve p with
       | Some at_ =>
           if sample_is_dir at_ then (fs, Some (IsADirectoryError p))
           else (<[at_ := data]> fs, None)
       | None => (fs, Some (FileNotFoundError p))
       end;
     read_file := λ fs p,
       match sample_resolve p with
       | Some at_ =>
           if sample_is_dir at_ then inl (IsADirectoryError p)
           else match fs !! at_ with
                | Some data => inr data
                | None => inl (FileNotFoundError p)
                end
       | None => inl (FileNotFoundError p)
       end;
     getsize := λ fs p,
       match sample_resolve p with
       | Some at_ =>
           if sample_is_dir at_ then inr 4096
           else match fs !! at_ with
                | Some data => inr (Z.of_nat (length data))
                | None => inl (FileNotFoundError p)
                end
       | None => inl (FileNotFoundError p)
       end |}.

Definition upload_real_pdf : UploadFile :=
  {| filename := "my notes.pdf"; size := Some 8; file := bytes "%PDF-1.4" |}.
Definition upload_real_pdf_again : UploadFile :=
  {| filename := "my_notes.pdf"; size := Some 9; file := bytes "%PDF-1.7x" |}.

(** A state that holds one PDF in [uploads]. *)
Definition sample_store : files sample_os :=
  <[["app"; "uploads"; "my_notes.pdf"] := bytes "%PDF-1.4"]> ∅.

End Api.

(** * Properties of the chunker *)

Module ChunkerFacts.
Import PySlice Chunker.

Section SliceFacts.
Context {A : Type}.
Implicit Types (s : list A) (i j n : Z).

Lemma adjust_index_nonneg n i :
  0 ≤ n → 0 ≤ i → adjust_index n i = Z.min i n.
Proof.
  intros Hn Hi. unfold adjust_index.
  destruct (Z.ltb_spec i 0); [lia|].
  destruct (Z.leb_spec n i); lia.
Qed.

Lemma adjust_index_range n i : 0 ≤ n → 0 ≤ adjust_index n i ≤ n.
Proof.
  intros Hn. unfold adjust_index.
  repeat match goal with
         | |- context [ (?a <? ?b) ] => destruct (Z.ltb_spec a b)
         | |- context [ (?a <=? ?b) ] => destruct (Z.leb_spec a b)
         end; lia.
Qed.

(** A slice never has more elements than the distance of its bounds. *)
Lemma slice_length_le s i j :
  Z.of_nat (length (slice s i j))
  ≤ Z.max 0 (adjust_index (Z.of_nat (length s)) j
             - adjust_index (Z.of_nat (length s)) i).
Proof. unfold slice. rewrite length_take. lia. Qed.

(** With a start inside the sequence the slice is the window from
    [i] to [min j (len s)]. *)
Lemma slice_length s i j :
  0 ≤ i ≤ Z.of_nat (length s) → i ≤ j →
  Z.of_nat (length (slice s i j)) = Z.min j (Z.of_nat (length s)) - i.
Proof.
  intros Hi Hj. unfold slice.
  rewrite !adjust_index_nonneg by lia.
  rewrite length_take, length_drop. lia.
Qed.

(** A stop beyond the end is the end. *)
Lemma slice_clip s i j :
  0 ≤ j → slice s i j = slice s i (Z.min j (Z.of_nat (length s))).
Proof.
  intros Hj. unfold slice.
  rewrite (adjust_index_nonneg _ j), (adjust_index_nonneg _ (Z.min _ _)) by lia.
  do 2 f_equal. lia.
Qed.
End SliceFacts.

Section LoopFacts.
Context {Char : Type}.
Variables (txt : list Char) (chunk_size overlap : Z).

Local Abbreviation body := (loop_body txt chunk_size overlap).
Local Abbreviation stride := (chunk_size - overlap).
Local Abbreviation after := (Chunker.after txt chunk_size overlap).
Local Abbreviation nth_chunk := (Chunker.nth_chunk txt chunk_size overlap).
Local Abbreviation num_chunks := (Chunker.num_chunks txt chunk_size overlap).

Lemma after_S n st : after (S n) st = after n (body st).
Proof. unfold Chunker.after. apply Nat.iter_succ_r. Qed.

(** The loop leaves after exactly [n] iterations when the test holds
    before each of them and fails after the last. *)
Lemma while_exit n : ∀ fuel st,
  (∀ m, (m < n)%nat → loop_test txt (after m st) = true) →
  loop_test txt (after n st) = false →
  (n ≤ fuel)%nat →
  while fuel txt chunk_size overlap st = Some (after n st).
Proof.
  induction n as [|n IH]; intros fuel st Hbefore Hlast Hfuel.
  - change (loop_test txt st = false) in Hlast.
    destruct fuel; cbn [while]; rewrite Hlast; reflexivity.
  - destruct fuel as [|fuel]; [lia|].
    pose proof (Hbefore 0%nat ltac:(lia)) as H0.
    change (loop_test txt st = true) in H0.
    cbn [while]. rewrite H0, after_S. apply IH; [|by rewrite <- after_S|lia].
    intros m Hm. rewrite <- after_S. apply Hbefore. lia.
Qed.

(** The loop never leaves when the test holds after every iteration. *)
Lemma while_forever : ∀ fuel st,
  (∀ m, loop_test txt (after m st) = true) →
  while fuel txt chunk_size overlap st = None.
Proof.
  induction fuel as [|fuel IH]; intros st Htest;
    pose proof (Htest 0%nat) as H0; change (loop_test txt st = true) in H0;
    cbn [while]; rewrite H0; [done|].
  apply IH. intros m. rewrite <- after_S. apply Htest.
Qed.

(** More fuel does not change a result. *)
Lemma while_more_fuel : ∀ fuel fuel' st st',
  while fuel txt chunk_size overlap st = Some st' →
  (fuel ≤ fuel')%nat →
  while fuel' txt chunk_size overlap st = Some st'.
Proof.
  induction fuel as [|fuel IH]; intros fuel' st st'; cbn.
  - destruct (loop_test txt st) eqn:Ht; [done|].
    intros [= <-] _. destruct fuel'; cbn; by rewrite Ht.
  - destruct (loop_test txt st) eqn:Ht.
    + intros Hw Hle. destruct fuel' as [|fuel']; [lia|].
      cbn. rewrite Ht. apply (IH fuel'); [done|lia].
    + intros [= <-] _. destruct fuel'; cbn; by rewrite Ht.
Qed.

Lemma after_initial n :
  after n initial =
  {| chunks := nth_chunk <$> seq 0 n;
     start := Z.of_nat n * stride;
     next_id := Z.of_nat n |}.
Proof.
  induction n as [|n IH]; [done|].
  change (after (S n) initial) with (body (after n initial)). rewrite IH.
  unfold loop_body; cbn [chunks start next_id].
  rewrite seq_S, fmap_app. cbn [fmap list_fmap]. unfold Chunker.nth_chunk.
  f_equal; lia.
Qed.

Lemma test_after_initial n :
  loop_test txt (after n initial) = (Z.of_nat n * stride <? len txt).
Proof. by rewrite after_initial. Qed.

Lemma num_chunks_spec :
  0 < stride →
  len txt ≤ Z.of_nat num_chunks * stride
  ∧ ∀ m, (m < num_chunks)%nat → Z.of_nat m * stride < len txt.
Proof.
  intros Hs. unfold Chunker.num_chunks.
  assert (0 ≤ len txt) by (unfold len; lia).
  pose proof (Z.div_mod (len txt + stride - 1) stride ltac:(lia)) as Hdm.
  pose proof (Z.mod_pos_bound (len txt + stride - 1) stride Hs) as Hmod.
  assert (0 ≤ (len txt + stride - 1) / stride)
    by (apply Z.div_pos; lia).
  split; [rewrite Z2Nat.id by done; nia|].
  intros m Hm.
  assert (Z.of_nat m + 1 ≤ (len txt + stride - 1) / stride) by lia.
  nia.
Qed.

Lemma num_chunks_le_length : 0 < stride → (num_chunks ≤ length txt)%nat.
Proof.
  intros Hs. destruct (num_chunks_spec Hs) as [_ Hlt].
  destruct num_chunks as [|n] eqn:Hn; [lia|].
  specialize (Hlt n ltac:(lia)). unfold len in Hlt. nia.
Qed.

(** With a positive stride the loop leaves after [num_chunks]
    iterations, and at most [len(text)] of them. *)
Theorem chunk_text_closed fuel :
  overlap < chunk_size → (length txt ≤ fuel)%nat →
  chunk_text fuel txt chunk_size overlap
  = Some (nth_chunk <$> seq 0 num_chunks).
Proof.
  intros Hs Hfuel. unfold chunk_text.
  destruct (num_chunks_spec ltac:(lia)) as [Hge Hlt].
  rewrite (while_exit num_chunks).
  - by rewrite after_initial.
  - intros m Hm. rewrite test_after_initial. apply Z.ltb_lt. by apply Hlt.
  - rewrite test_after_initial. apply Z.ltb_ge. done.
  - pose proof (num_chunks_le_length ltac:(lia)). lia.
Qed.

(** [chunk_text] has at most one result. *)
Lemma returns_functional cs cs' :
  returns txt chunk_size overlap cs → returns txt chunk_size overlap cs' →
  cs = cs'.
Proof.
  intros [f Hf] [f' Hf']. unfold chunk_text in *.
  destruct (while f _ _ _ _) as [st|] eqn:Hw; [|done].
  destruct (while f' _ _ _ _) as [st'|] eqn:Hw'; [|done].
  apply (while_more_fuel _ (f `max` f')%nat) in Hw; [|lia].
  apply (while_more_fuel _ (f `max` f')%nat) in Hw'; [|lia].
  cbn in *. congruence.
Qed.

(** *** The chunks one by one *)

Lemma elem_of_chunks c n :
  c ∈ nth_chunk <$> seq 0 n ↔ ∃ k, (k < n)%nat ∧ c = nth_chunk k.
Proof.
  rewrite list_elem_of_fmap. split.
  - intros (k & -> & Hk). apply elem_of_seq in Hk. exists k. split; [lia|done].
  - intros (k & Hk & ->). exists k. split; [done|]. apply elem_of_seq. lia.
Qed.

Lemma lookup_chunks c n k :
  (nth_chunk <$> seq 0 n) !! k = Some c ↔ (k < n)%nat ∧ c = nth_chunk k.
Proof.
  rewrite list_lookup_fmap. split.
  - intros H. apply fmap_Some in H as (j & Hj & ->).
    apply lookup_seq in Hj as [-> ?]. done.
  - intros [Hk ->]. by rewrite lookup_seq_lt.
Qed.

Lemma make_chunk_end_char id st :
  end_char (make_chunk txt chunk_size id st)
  = Z.min (st + chunk_size) (len txt).
Proof. cbn. destruct (Z.ltb_spec (st + chunk_size) (len txt)); lia. Qed.

Lemma make_chunk_text_len id st :
  0 ≤ st ≤ len txt → 0 ≤ chunk_size →
  len (text (make_chunk txt chunk_size id st))
  = Z.min (st + chunk_size) (len txt) - st.
Proof. intros Hst Hcs. cbn. unfold len. apply slice_length; unfold len in *; lia. Qed.

Lemma make_chunk_text_slice id st :
  0 ≤ st + chunk_size →
  text (make_chunk txt chunk_size id st)
  = slice txt st (end_char (make_chunk txt chunk_size id st)).
Proof.
  intros H. rewrite make_chunk_end_char. cbn. by apply slice_clip.
Qed.

(** Where the window of an emitted chunk lies. *)
Lemma nth_chunk_start k :
  0 < stride → (k < num_chunks)%nat →
  0 ≤ start_char (nth_chunk k) < len txt.
Proof.
  intros Hs Hk. destruct (num_chunks_spec Hs) as [_ Hlt].
  specialize (Hlt k Hk). cbn. nia.
Qed.

Lemma last_chunk_end k :
  0 ≤ overlap < chunk_size → S k = num_chunks →
  end_char (nth_chunk k) = len txt.
Proof.
  intros Hs Hk. destruct (num_chunks_spec ltac:(lia)) as [Hge _].
  rewrite <- Hk in Hge. unfold Chunker.nth_chunk.
  rewrite make_chunk_end_char. nia.
Qed.

(** *** Divergence *)

Lemma chunk_text_diverges :
  txt ≠ [] → chunk_size ≤ overlap → diverges txt chunk_size overlap.
Proof.
  intros Hne Hs fuel. unfold chunk_text.
  rewrite while_forever; [done|].
  intros m. rewrite test_after_initial. apply Z.ltb_lt.
  assert (0 < len txt) by (unfold len; destruct txt; [done|cbn; lia]).
  nia.
Qed.

Lemma chunk_text_empty fuel :
  txt = [] → chunk_text fuel txt chunk_size overlap = Some [].
Proof. intros ->. by destruct fuel. Qed.
End LoopFacts.

Section Claims.
Context {Char : Type}.
Implicit Types (txt : list Char) (chunk_size overlap : Z).
Implicit Types (cs : list (Chunk Char)) (c : Chunk Char).

(** With [overlap < chunk_size] the call returns the closed form. *)
Lemma returns_closed txt chunk_size overlap :
  overlap < chunk_size →
  returns txt chunk_size overlap
    (nth_chunk txt chunk_size overlap <$> seq 0 (num_chunks txt chunk_size overlap)).
Proof. intros Hs. exists (length txt). by apply chunk_text_closed. Qed.

(** ... and nothing else. *)
Lemma returns_inv txt chunk_size overlap cs :
  overlap < chunk_size → returns txt chunk_size overlap cs →
  cs = nth_chunk txt chunk_size overlap <$> seq 0 (num_chunks txt chunk_size overlap).
Proof.
  intros Hs Hr. eapply returns_functional; [exact Hr|by apply returns_closed].
Qed.

(** C1: for a non-empty text and [0 < overlap < chunk_size], the ranges
    [[start_char, end_char)] of the chunks that [chunk_text] returns
    union to exactly [[0, len(text))], neighbouring ranges leave no gap,
    and no chunk text is longer than [chunk_size]. *)
Theorem chunks_cover_text txt chunk_size overlap :
  txt ≠ [] → 0 < overlap < chunk_size →
  (∃ cs, returns txt chunk_size overlap cs)
  ∧ ∀ cs, returns txt chunk_size overlap cs →
      (∀ i, 0 ≤ i < len txt ↔ ∃ c, c ∈ cs ∧ start_char c ≤ i < end_char c)
    ∧ (∀ k c c', cs !! k = Some c → cs !! S k = Some c' →
         start_char c' ≤ end_char c)
    ∧ (∀ c, c ∈ cs → len (text c) ≤ chunk_size).
Proof.
  intros Hne Hov. split; [eexists; apply returns_closed; lia|].
  intros cs Hr. apply returns_inv in Hr as ->; [|lia].
  set (s := chunk_size - overlap). assert (0 < s) as Hs by lia.
  destruct (num_chunks_spec txt chunk_size overlap Hs) as [Hge Hlt].
  split; [|split].
  - intros i. split.
    + intros Hi. exists (nth_chunk txt chunk_size overlap (Z.to_nat (i / s))).
      assert (0 ≤ i / s) by (apply Z.div_pos; lia).
      pose proof (Z.div_mod i s ltac:(lia)).
      pose proof (Z.mod_pos_bound i s Hs).
      split.
      * apply elem_of_chunks. eexists. split; [|done].
        destruct (decide (Z.to_nat (i / s) < num_chunks txt chunk_size overlap)%nat)
          as [|Hnlt]; [done|].
        assert (Z.of_nat (num_chunks txt chunk_size overlap) ≤ i / s) by lia.
        fold s in Hge. nia.
      * unfold Chunker.nth_chunk. rewrite make_chunk_end_char.
        cbn [start_char make_chunk]. rewrite Z2Nat.id by done.
        fold s. nia.
    + intros (c & Hc & Hi). apply elem_of_chunks in Hc as (k & Hk & ->).
      pose proof (nth_chunk_start txt chunk_size overlap k Hs Hk).
      unfold Chunker.nth_chunk in Hi. rewrite make_chunk_end_char in Hi.
      cbn [start_char make_chunk] in *. lia.
  - intros k c c' Hc Hc'.
    apply lookup_chunks in Hc as [Hk ->].
    apply lookup_chunks in Hc' as [Hk' ->].
    pose proof (nth_chunk_start txt chunk_size overlap (S k) Hs Hk').
    unfold Chunker.nth_chunk in *. rewrite make_chunk_end_char.
    cbn [start_char make_chunk] in *. lia.
  - intros c Hc. apply elem_of_chunks in Hc as (k & Hk & ->).
    pose proof (nth_chunk_start txt chunk_size overlap k Hs Hk) as Hst.
    unfold Chunker.nth_chunk in *. cbn [start_char make_chunk] in Hst.
    rewrite make_chunk_text_len by lia. lia.
Qed.

(** C3: with [0 <= overlap < chunk_size], every chunk has
    [end_char = min(start_char + chunk_size, len(text))] and its text is
    [text[start_char:end_char]]; the last chunk ends at [len(text)]. *)
Theorem end_char_is_clamped txt chunk_size overlap :
  0 ≤ overlap < chunk_size →
  (∃ cs, returns txt chunk_size overlap cs)
  ∧ ∀ cs, returns txt chunk_size overlap cs →
      (∀ c, c ∈ cs →
         end_char c = Z.min (start_char c + chunk_size) (len txt)
         ∧ text c = slice txt (start_char c) (end_char c))
    ∧ (∀ c, last cs = Some c → end_char c = len txt).
Proof.
  intros Hov. split; [eexists; apply returns_closed; lia|].
  intros cs Hr. apply returns_inv in Hr as ->; [|lia].
  assert (0 < chunk_size - overlap) as Hs by lia.
  split.
  - intros c Hc. apply elem_of_chunks in Hc as (k & Hk & ->).
    pose proof (nth_chunk_start txt chunk_size overlap k Hs Hk) as Hst.
    unfold Chunker.nth_chunk in *. cbn [start_char make_chunk] in Hst.
    split; [apply make_chunk_end_char|].
    rewrite make_chunk_text_slice by lia. done.
  - intros c Hc. rewrite last_lookup, length_fmap, length_seq in Hc.
    apply lookup_chunks in Hc as [Hk ->].
    apply last_chunk_end; [done|lia].
Qed.

(** C4: with [0 <= overlap < chunk_size], the [start_char] of each chunk
    is that of the chunk before it plus [chunk_size - overlap], for
    every pair of neighbours. *)
Theorem consecutive_starts txt chunk_size overlap :
  0 ≤ overlap < chunk_size →
  (∃ cs, returns txt chunk_size overlap cs)
  ∧ ∀ cs, returns txt chunk_size overlap cs →
      ∀ k c c', cs !! k = Some c → cs !! S k = Some c' →
        start_char c' = start_char c + (chunk_size - overlap).
Proof.
  intros Hov. split; [eexists; apply returns_closed; lia|].
  intros cs Hr. apply returns_inv in Hr as ->; [|lia].
  intros k c c' Hc Hc'.
  apply lookup_chunks in Hc as [_ ->]. apply lookup_chunks in Hc' as [_ ->].
  cbn. lia.
Qed.

(** C5 as amended: with [0 <= overlap < chunk_size], [num_chars] is the
    length of the chunk text and equals [end_char - start_char] for
    every chunk: it is [chunk_size] when the window fits, and the tail
    length [len(text) - start_char] otherwise. *)
Theorem num_chars_is_range_length txt chunk_size overlap :
  0 ≤ overlap < chunk_size →
  (∃ cs, returns txt chunk_size overlap cs)
  ∧ ∀ cs, returns txt chunk_size overlap cs →
      ∀ c, c ∈ cs →
        num_chars c = len (text c)
        ∧ num_chars c = end_char c - start_char c
        ∧ (start_char c + chunk_size ≤ len txt → num_chars c = chunk_size)
        ∧ (len txt < start_char c + chunk_size →
             num_chars c = len txt - start_char c).
Proof.
  intros Hov. split; [eexists; apply returns_closed; lia|].
  intros cs Hr. apply returns_inv in Hr as ->; [|lia].
  assert (0 < chunk_size - overlap) as Hs by lia.
  intros c Hc. apply elem_of_chunks in Hc as (k & Hk & ->).
  pose proof (nth_chunk_start txt chunk_size overlap k Hs Hk) as Hst.
  unfold Chunker.nth_chunk in *. cbn [start_char make_chunk] in Hst.
  split; [done|].
  change (num_chars (make_chunk ?t ?z ?i ?st))
    with (len (text (make_chunk t z i st))).
  rewrite make_chunk_text_len, make_chunk_end_char by lia.
  cbn [start_char make_chunk]. lia.
Qed.

(** C6: with [0 <= overlap < chunk_size], the chunk at position [k] of
    the result has [chunk_id = k], so the ids are [0..N-1] in emission
    order; [start_char] grows strictly along the sequence, so the orders
    by [chunk_id] and by [start_char] agree; an empty text gives no chunk. *)
Theorem chunk_ids_in_order txt chunk_size overlap :
  0 ≤ overlap < chunk_size →
  (∃ cs, returns txt chunk_size overlap cs)
  ∧ ∀ cs, returns txt chunk_size overlap cs →
      chunk_id <$> cs = Z.of_nat <$> seq 0 (length cs)
    ∧ (∀ i j c c', cs !! i = Some c → cs !! j = Some c' →
         (i < j)%nat → start_char c < start_char c')
    ∧ (∀ c c', c ∈ cs → c' ∈ cs →
         chunk_id c < chunk_id c' ↔ start_char c < start_char c')
    ∧ (txt = [] → cs = []).
Proof.
  intros Hov. split; [eexists; apply returns_closed; lia|].
  intros cs Hr. apply returns_inv in Hr as ->; [|lia].
  assert (0 < chunk_size - overlap) as Hs by lia.
  split; [|split; [|split]].
  - rewrite length_fmap, length_seq, <- list_fmap_compose.
    by apply list_fmap_ext.
  - intros i j c c' Hc Hc' Hij.
    apply lookup_chunks in Hc as [_ ->]. apply lookup_chunks in Hc' as [_ ->].
    cbn. nia.
  - intros c c' Hc Hc'.
    apply elem_of_chunks in Hc as (k & _ & ->).
    apply elem_of_chunks in Hc' as (k' & _ & ->).
    cbn. nia.
  - intros ->. unfold Chunker.num_chunks, len. cbn [length].
    rewrite Z.div_small by lia. done.
Qed.

(** C7: when [chunk_size = overlap] and the text is not empty, [start]
    is 0 after every iteration and [chunk_text] returns for no amount of
    fuel; when [0 <= overlap < chunk_size], every iteration moves [start]
    by the positive amount [chunk_size - overlap] and [chunk_text]
    returns after at most [len(text)] iterations. *)
Theorem termination_needs_smaller_overlap txt chunk_size overlap :
  (chunk_size = overlap → txt ≠ [] →
     (∀ n, start (after txt chunk_size overlap n initial) = 0)
     ∧ diverges txt chunk_size overlap
     ∧ ¬ ∃ cs, returns txt chunk_size overlap cs)
  ∧ (0 ≤ overlap < chunk_size →
       (∀ st, start (loop_body txt chunk_size overlap st)
              = start st + (chunk_size - overlap)
              ∧ 0 < chunk_size - overlap)
       ∧ ∃ cs, chunk_text (length txt) txt chunk_size overlap = Some cs).
Proof.
  split.
  - intros Heq Hne.
    pose proof (chunk_text_diverges txt chunk_size overlap Hne ltac:(lia)) as Hd.
    split; [|split; [done|]].
    + intros n. rewrite after_initial. cbn. nia.
    + intros (cs & fuel & Hr). by rewrite Hd in Hr.
  - intros Hov. split.
    + intros st. cbn. lia.
    + eexists. apply chunk_text_closed; lia.
Qed.

(** C8 as amended: [chunk_text] checks nothing and has no error result.
    For every [chunk_size], positive or not, it returns a chunk sequence
    exactly when the text is empty or [overlap < chunk_size], and loops
    forever otherwise. *)
Theorem returns_iff_empty_or_advancing txt chunk_size overlap :
  ((∃ cs, returns txt chunk_size overlap cs)
     ↔ txt = [] ∨ overlap < chunk_size)
  ∧ (diverges txt chunk_size overlap
     ↔ txt ≠ [] ∧ chunk_size ≤ overlap).
Proof.
  assert (txt = [] ∨ overlap < chunk_size →
          ∃ cs, returns txt chunk_size overlap cs) as Hret.
  { intros [->|Hs].
    - exists [], 0%nat. by apply chunk_text_empty.
    - eexists. by apply returns_closed. }
  assert (txt ≠ [] ∧ chunk_size ≤ overlap →
          diverges txt chunk_size overlap) as Hdiv.
  { intros [? ?]. by apply chunk_text_diverges. }
  assert (diverges txt chunk_size overlap →
          ¬ ∃ cs, returns txt chunk_size overlap cs) as Hexcl.
  { intros Hd (cs & fuel & Hr). by rewrite Hd in Hr. }
  split; split; [|done| |done].
  - intros Hr. destruct (decide (txt = [])) as [|Hne]; [by left|].
    destruct (decide (overlap < chunk_size)) as [|Hge]; [by right|].
    assert (chunk_size ≤ overlap) as Hle by lia.
    destruct (Hexcl (Hdiv (conj Hne Hle)) Hr).
  - intros Hd. destruct (decide (txt = [])) as [->|Hne].
    { destruct (Hexcl Hd). apply Hret. by left. }
    split; [done|].
    destruct (decide (overlap < chunk_size)) as [Hlt|]; [|lia].
    destruct (Hexcl Hd). apply Hret. by right.
Qed.
End Claims.

(** ** Concrete runs *)

(** C2: [chunk_text("abcdefghij", chunk_size=4, overlap=1)] returns four
    chunks, with the triples [("abcd",0,4)], [("defg",3,7)], [("ghij",6,10)]
    and [("j",9,10)] in this order. *)
Theorem chunk_text_abcdefghij :
  let expected :=
    [mkChunk 0 (str "abcd") 0 4 4; mkChunk 1 (str "defg") 3 7 4;
     mkChunk 2 (str "ghij") 6 10 4; mkChunk 3 (str "j") 9 10 1] in
  chunk_text 4 (str "abcdefghij") 4 1 = Some expected
  ∧ (∀ cs, returns (str "abcdefghij") 4 1 cs → cs = expected)
  ∧ triple <$> expected
    = [("abcd"%string, 0, 4); ("defg"%string, 3, 7);
       ("ghij"%string, 6, 10); ("j"%string, 9, 10)].
Proof.
  cbv zeta. split; [reflexivity|]. split; [|reflexivity].
  intros cs Hr. eapply returns_functional; [exact Hr|].
  exists 4%nat. reflexivity.
Qed.

Lemma chunks_cover_text_witness :
  str "abcdefghij" ≠ [] ∧ 0 < 1 < 4
  ∧ (∃ cs, returns (str "abcdefghij") 4 1 cs)
  ∧ ∀ cs, returns (str "abcdefghij") 4 1 cs →
      (∀ i, 0 ≤ i < len (str "abcdefghij")
              ↔ ∃ c, c ∈ cs ∧ start_char c ≤ i < end_char c)
      ∧ (∀ k c c', cs !! k = Some c → cs !! S k = Some c' →
           start_char c' ≤ end_char c)
      ∧ (∀ c, c ∈ cs → len (text c) ≤ 4).
Proof.
  split; [discriminate|]. split; [lia|].
  apply chunks_cover_text; [discriminate|lia].
Defined.

Lemma end_char_is_clamped_witness :
  0 ≤ 1 < 4
  ∧ (∃ cs, returns (str "abcdefghij") 4 1 cs)
  ∧ ∀ cs, returns (str "abcdefghij") 4 1 cs →
      (∀ c, c ∈ cs →
           end_char c = Z.min (start_char c + 4) (len (str "abcdefghij"))
           ∧ text c = slice (str "abcdefghij") (start_char c) (end_char c))
      ∧ (∀ c, last cs = Some c → end_char c = len (str "abcdefghij")).
Proof. split; [lia|]. apply end_char_is_clamped. lia. Defined.

Lemma consecutive_starts_witness :
  0 ≤ 1 < 4
  ∧ (∃ cs, returns (str "abcdefghij") 4 1 cs)
  ∧ ∀ cs, returns (str "abcdefghij") 4 1 cs →
      ∀ k c c', cs !! k = Some c → cs !! S k = Some c' →
          start_char c' = start_char c + (4 - 1).
Proof. split; [lia|]. apply consecutive_starts. lia. Defined.

(** C5, as stated, fails on the last chunk of the run above: the chunk
    [("j", 9, 10)] has [num_chars = 1 = end_char - start_char] although
    its window [9 + 4] passes the end of the ten characters. *)
Lemma num_chars_only_when_counterexample :
  ∃ cs, chunk_text 4 (str "abcdefghij") 4 1 = Some cs
    ∧ cs !! 3%nat = Some (mkChunk 3 (str "j") 9 10 1)
    ∧ ¬ range_length_only_when_window_fits (str "abcdefghij") 4
          (mkChunk 3 (str "j") 9 10 1).
Proof.
  eexists. split; [vm_compute; reflexivity|]. split; [reflexivity|].
  intros H. specialize (H eq_refl). vm_compute in H. by apply H.
Qed.

Lemma num_chars_is_range_length_witness :
  0 ≤ 1 < 4
  ∧ (∃ cs, returns (str "abcdefghij") 4 1 cs)
  ∧ ∀ cs, returns (str "abcdefghij") 4 1 cs →
      ∀ c, c ∈ cs →
          num_chars c = len (text c)
          ∧ num_chars c = end_char c - start_char c
          ∧ (start_char c + 4 ≤ len (str "abcdefghij") → num_chars c = 4)
          ∧ (len (str "abcdefghij") < start_char c + 4 →
               num_chars c = len (str "abcdefghij") - start_char c).
Proof. split; [lia|]. apply num_chars_is_range_length. lia. Defined.

Lemma chunk_ids_in_order_witness :
  0 ≤ 1 < 4
  ∧ (∃ cs, returns (str "abcdefghij") 4 1 cs)
  ∧ ∀ cs, returns (str "abcdefghij") 4 1 cs →
      chunk_id <$> cs = Z.of_nat <$> seq 0 (length cs)
      ∧ (∀ i j c c', cs !! i = Some c → cs !! j = Some c' →
           (i < j)%nat → start_char c < start_char c')
      ∧ (∀ c c', c ∈ cs → c' ∈ cs →
           chunk_id c < chunk_id c' ↔ start_char c < start_char c')
      ∧ (str "abcdefghij" = [] → cs = []).
Proof. split; [lia|]. apply chunk_ids_in_order. lia. Defined.

Lemma termination_needs_smaller_overlap_witness :
  ((4 = 4 ∧ str "abcdefghij" ≠ [])
   ∧ (∀ n, start (after (str "abcdefghij") 4 4 n initial) = 0)
   ∧ diverges (str "abcdefghij") 4 4
   ∧ ¬ ∃ cs, returns (str "abcdefghij") 4 4 cs)
  ∧ (0 ≤ 1 < 4
     ∧ (∀ st, start (loop_body (str "abcdefghij") 4 1 st) = start st + (4 - 1)
              ∧ 0 < 4 - 1)
     ∧ ∃ cs, chunk_text (length (str "abcdefghij")) (str "abcdefghij") 4 1
             = Some cs).
Proof.
  split.
  - split; [split; [reflexivity|discriminate]|].
    apply (proj1 (termination_needs_smaller_overlap (str "abcdefghij") 4 4));
      [reflexivity|discriminate].
  - split; [lia|].
    apply (proj2 (termination_needs_smaller_overlap (str "abcdefghij") 4 1)).
    lia.
Defined.

(** C8, as stated, fails: no check guards [chunk_size <= 0].  The call
    returns the empty sequence for an empty text and [chunk_size = 0], and
    one chunk for ["abc"] with [chunk_size = -1] and [overlap = -5]; and for
    the positive [chunk_size = 1] with [overlap = 1] it never returns. *)
Lemma chunk_size_not_validated_counterexample :
  chunk_text 0 (str "") 0 0 = Some []
  ∧ chunk_text 1 (str "abc") (-1) (-5) = Some [mkChunk 0 (str "ab") 0 (-1) 2]
  ∧ (0 < 1 ∧ diverges (str "a") 1 1).
Proof.
  split; [reflexivity|]. split; [reflexivity|]. split; [lia|].
  apply chunk_text_diverges; [discriminate|lia].
Qed.

End ChunkerFacts.

(** * Properties of the endpoints *)

Module ApiFacts.
Import Api.

Local Open Scope string_scope.
Local Open Scope Z_scope.

Section EndpointFacts.
Variable os : FileSystem.
Variable pdf_reader : list Byte.byte → exception + list string.
Variable str_exn : exception → string.
Implicit Types (fs : files os) (f : UploadFile).

Local Abbreviation extract_text_from_pdf :=
  (Api.extract_text_from_pdf os pdf_reader str_exn).
Local Abbreviation upload_pdf := (Api.upload_pdf os pdf_reader str_exn).
Local Abbreviation extract_text := (Api.extract_text os pdf_reader str_exn).
Local Abbreviation chunk_pdf := (Api.chunk_pdf os pdf_reader str_exn).

(** Extraction answers with a result or with a 500. *)
Lemma extract_text_from_pdf_status fs path :
  status_of (extract_text_from_pdf fs path) = 200
  ∨ status_of (extract_text_from_pdf fs path) = 500.
Proof.
  unfold Api.extract_text_from_pdf.
  destruct (read_file os fs path) as [e|data]; [|destruct (pdf_reader data)];
    cbn; auto.
Qed.

Lemma extract_text_from_pdf_raise fs path e :
  extract_text_from_pdf fs path = Raise e →
  ∃ detail, e = HTTPException 500 detail.
Proof.
  unfold Api.extract_text_from_pdf.
  destruct (read_file os fs path) as [e'|data]; [|destruct (pdf_reader data)];
    intros [= <-]; eauto.
Qed.


Lemma parsed_upload_empty f :
  parsed_upload f → (size f = Some 0 ↔ file f = []).
Proof.
  unfold parsed_upload. intros ->. destruct (file f); cbn; [done|].
  split; [intros [= H]; lia|done].
Qed.


(** C10 as amended: in [extract_text] and in [chunk_pdf] the test of the
    path comes first: when [exists()] is false for the path of the file
    name the answer is a 404, whether or not the name ends in [.pdf]; and
    a 400 is the answer exactly when [exists()] is true for the path, be
    it a stored file or a directory, and the name does not end in [.pdf]. *)
Theorem missing_file_checked_before_extension fs filename :
  let file_path := path_div os UPLOAD_DIR filename in
  let not_found :=
    HTTPException 404
      ("File '" ++ filename ++ "' not found. Please upload it first.") in
  (path_exists os fs file_path = inr false →
     extract_text fs filename = Raise not_found
     ∧ ∀ fuel chunk_size overlap,
         chunk_pdf fuel fs filename chunk_size overlap = Some (Raise not_found))
  ∧ (status_of (extract_text fs filename) = 400
     ↔ path_exists os fs file_path = inr true
       ∧ endswith filename ".pdf" = false)
  ∧ (∀ fuel chunk_size overlap,
       (∃ r, chunk_pdf fuel fs filename chunk_size overlap = Some r
             ∧ status_of r = 400)
       ↔ path_exists os fs file_path = inr true
         ∧ endswith filename ".pdf" = false).
Proof.
  intros file_path not_found.
  unfold Api.extract_text, Api.chunk_pdf. fold file_path not_found.
  split; [|split].
  - intros ->. done.
  - destruct (path_exists os fs file_path) as [e|[|]] eqn:Hfs.
    + cbn. split; [lia|]. by intros [? _].
    + destruct (endswith filename ".pdf"); cbn [negb].
      * pose proof (extract_text_from_pdf_status fs file_path) as Hst.
        destruct (extract_text_from_pdf fs file_path) as [r|e] eqn:Hex.
        { cbn. split; [lia|]. by intros [_ ?]. }
        apply extract_text_from_pdf_raise in Hex as [detail ->].
        cbn. split; [lia|]. by intros [_ ?].
      * cbn. split; [eauto|done].
    + cbn. split; [lia|]. by intros [? _].
  - intros fuel chunk_size overlap.
    destruct (path_exists os fs file_path) as [e|[|]] eqn:Hfs.
    + split; [|by intros [? _]].
      intros (r & [= <-] & Hst). cbn in Hst. lia.
    + destruct (endswith filename ".pdf"); cbn [negb].
      * split; [|by intros [_ ?]].
        intros (r & Hr & Hst). exfalso.
        destruct (extract_text_from_pdf fs file_path) as [er|e] eqn:Hex.
        { destruct (Chunker.chunk_text _ _ _ _); cbn in Hr; [|done].
          injection Hr as <-. cbn in Hst. lia. }
        apply extract_text_from_pdf_raise in Hex as [detail ->].
        injection Hr as <-. cbn in Hst. lia.
      * split; [eauto|]. intros _. eexists. split; [done|]. done.
    + split; [|by intros [? _]].
      intros (r & [= <-] & Hst). cbn in Hst. lia.
Qed.
End EndpointFacts.

(** ** The sample file system *)

Lemma sample_os_well_behaved : well_behaved sample_os.
Proof.
  split; intros fs path data fs'; cbn;
    destruct (sample_resolve path) as [at_|]; try done;
    destruct (sample_is_dir at_) eqn:Hdir; try done;
    intros [= <-].
  - by rewrite lookup_insert_eq.
  - by rewrite lookup_insert_eq.
  - rewrite lookup_insert_eq, bool_decide_eq_true_2 by eauto.
    by rewrite orb_true_r.
Qed.

(** ** Concrete runs *)



(** C10, as stated, fails for the file name [.]: nothing is stored, but
    the path [uploads/.] is the upload directory itself, [exists()] is
    true for it, and the answer of both endpoints is the 400 of the
    suffix test, not a 404. *)
Lemma existing_directory_counterexample :
  (∀ path, ∃ e, read_file sample_os ∅ path = inl e)
  ∧ path_div sample_os UPLOAD_DIR "." = "uploads"
  ∧ path_exists sample_os ∅ "uploads" = inr true
  ∧ Api.extract_text sample_os sample_pdf_reader sample_str_exn ∅ "."
    = Raise (HTTPException 400 "File must be a PDF.")
  ∧ ∀ fuel chunk_size overlap,
      Api.chunk_pdf sample_os sample_pdf_reader sample_str_exn fuel ∅ "."
        chunk_size overlap
      = Some (Raise (HTTPException 400 "File must be a PDF.")).
Proof.
  split.
  { intros path. cbn. destruct (sample_resolve path) as [at_|]; [|eauto].
    destruct (sample_is_dir at_); [eauto|]. rewrite lookup_empty. eauto. }
  split; [reflexivity|]. split; [reflexivity|]. split; [reflexivity|].
  intros fuel chunk_size overlap. reflexivity.
Qed.

Lemma missing_file_checked_before_extension_witness :
  path_exists sample_os ∅ (path_div sample_os UPLOAD_DIR "notes.txt")
  = inr false
  ∧ endswith "notes.txt" ".pdf" = false
  ∧ Api.extract_text sample_os sample_pdf_reader sample_str_exn ∅ "notes.txt"
    = Raise (HTTPException 404
               "File 'notes.txt' not found. Please upload it first.")
  ∧ ∀ fuel chunk_size overlap,
      Api.chunk_pdf sample_os sample_pdf_reader sample_str_exn fuel ∅
        "notes.txt" chunk_size overlap
      = Some (Raise (HTTPException 404
                       "File 'notes.txt' not found. Please upload it first.")).
Proof.
  split; [reflexivity|]. split; [reflexivity|].
  apply (proj1 (missing_file_checked_before_extension sample_os
                  sample_pdf_reader sample_str_exn ∅ "notes.txt")).
  reflexivity.
Defined.

End ApiFacts.

(** * Further properties of the chunker *)

Module ChunkerMore.
Import PySlice Chunker ChunkerFacts.

Section Windows.
Context {Char : Type}.
Implicit Types (txt : list Char) (chunk_size overlap : Z).
Implicit Types (cs : list (Chunk Char)) (c : Chunk Char).

(** A slice that starts inside the sequence is a [take] of a [drop]. *)
Lemma slice_take_drop txt i j :
  0 ≤ i ≤ len txt → 0 ≤ j →
  slice txt i j = take (Z.to_nat (j - i)) (drop (Z.to_nat i) txt).
Proof.
  unfold len. intros Hi Hj. unfold slice.
  rewrite !adjust_index_nonneg by lia.
  rewrite (Z.min_l i) by lia.
  destruct (Z.le_ge_cases j (Z.of_nat (length txt))) as [Hle|Hge].
  - by rewrite Z.min_l by lia.
  - rewrite Z.min_r by lia. rewrite !take_ge; [done| |];
      rewrite length_drop; lia.
Qed.

(** The text of the [k]-th chunk, for a window that starts in the text. *)
Lemma nth_chunk_text txt chunk_size overlap k :
  0 ≤ chunk_size → 0 < chunk_size - overlap →
  (k < num_chunks txt chunk_size overlap)%nat →
  text (nth_chunk txt chunk_size overlap k)
  = take (Z.to_nat chunk_size)
      (drop (k * Z.to_nat (chunk_size - overlap)) txt).
Proof.
  intros Hcs Hs Hk.
  pose proof (nth_chunk_start txt chunk_size overlap k Hs Hk) as Hst.
  unfold Chunker.nth_chunk in *. cbn [start_char text make_chunk] in *.
  rewrite slice_take_drop by lia. f_equal; [f_equal; lia|].
  f_equal. rewrite Z2Nat.inj_mul, Nat2Z.id by lia. done.
Qed.

(** X1: the chunk count is [ceil(len(text) / (chunk_size - overlap))], and so
    at most [len(text)]. *)
Theorem chunk_count txt chunk_size overlap :
  overlap < chunk_size →
  (∃ cs, returns txt chunk_size overlap cs)
  ∧ ∀ cs, returns txt chunk_size overlap cs →
      Z.of_nat (length cs)
      = (len txt + (chunk_size - overlap) - 1) / (chunk_size - overlap)
      ∧ (length cs ≤ length txt)%nat
      ∧ (cs = [] ↔ txt = []).
Proof.
  intros Hov. split; [eexists; by apply returns_closed|].
  intros cs Hr. apply returns_inv in Hr as ->; [|done].
  assert (0 < chunk_size - overlap) as Hs by lia.
  rewrite length_fmap, length_seq.
  pose proof (num_chunks_le_length txt chunk_size overlap Hs) as Hle.
  destruct (num_chunks_spec txt chunk_size overlap Hs) as [Hge _].
  split; [|split; [done|]].
  - unfold Chunker.num_chunks. rewrite Z2Nat.id; [done|].
    apply Z.div_pos; unfold len; lia.
  - split.
    + intros Hnil. apply (f_equal length) in Hnil.
      rewrite length_fmap, length_seq in Hnil. cbn in Hnil.
      rewrite Hnil in Hge. unfold len in Hge. destruct txt; [done|cbn in Hge; lia].
    + intros ->. destruct (num_chunks [] chunk_size overlap); [done|].
      cbn in Hle. lia.
Qed.

(** X2: which offsets the chunks cover, for any [overlap < chunk_size], also a
    negative one: the offsets of the text whose remainder modulo the
    stride is below [chunk_size].  A negative overlap leaves the other
    offsets of the text in no chunk. *)
Theorem covered_offsets txt chunk_size overlap :
  overlap < chunk_size →
  (∃ cs, returns txt chunk_size overlap cs)
  ∧ ∀ cs, returns txt chunk_size overlap cs →
      ∀ i, covered cs i
           ↔ 0 ≤ i < len txt ∧ i mod (chunk_size - overlap) < chunk_size.
Proof.
  intros Hov. split; [eexists; by apply returns_closed|].
  intros cs Hr. apply returns_inv in Hr as ->; [|done].
  set (s := chunk_size - overlap). assert (0 < s) as Hs by lia.
  destruct (num_chunks_spec txt chunk_size overlap Hs) as [Hge Hlt].
  fold s in Hge, Hlt.
  intros i. unfold covered.
  pose proof (Z.div_mod i s ltac:(lia)) as Hdm.
  pose proof (Z.mod_pos_bound i s Hs) as Hmod.
  split.
  - intros (c & Hc & Hi). apply elem_of_chunks in Hc as (k & Hk & ->).
    pose proof (nth_chunk_start txt chunk_size overlap k Hs Hk) as Hst.
    unfold Chunker.nth_chunk in *. rewrite make_chunk_end_char in Hi.
    cbn [start_char make_chunk] in *. fold s in Hi, Hst.
    split; [lia|].
    destruct (Z.le_gt_cases s chunk_size) as [|Hgap]; [lia|].
    assert (i / s = Z.of_nat k) as Hq.
    { symmetry. apply (Z.div_unique i s _ (i - Z.of_nat k * s)); lia. }
    rewrite Hq in Hdm. lia.
  - intros [Hi Hrem].
    assert (0 ≤ i / s) by (apply Z.div_pos; lia).
    exists (nth_chunk txt chunk_size overlap (Z.to_nat (i / s))). split.
    + apply elem_of_chunks. eexists. split; [|done].
      destruct (decide (Z.to_nat (i / s) < num_chunks txt chunk_size overlap)%nat)
        as [|Hnlt]; [done|].
      assert (Z.of_nat (num_chunks txt chunk_size overlap) ≤ i / s) by lia.
      nia.
    + unfold Chunker.nth_chunk. rewrite make_chunk_end_char.
      cbn [start_char make_chunk]. rewrite Z2Nat.id by done.
      fold s. nia.
Qed.

(** X3: gluing the first [chunk_size - overlap] characters of every chunk, in
    order, gives the text back: nothing is lost and nothing reordered. *)
Theorem fresh_parts_rebuild_text txt chunk_size overlap :
  0 ≤ overlap < chunk_size →
  (∃ cs, returns txt chunk_size overlap cs)
  ∧ ∀ cs, returns txt chunk_size overlap cs →
      concat (fresh_part chunk_size overlap <$> cs) = txt.
Proof.
  intros Hov. split; [eexists; apply returns_closed; lia|].
  intros cs Hr. apply returns_inv in Hr as ->; [|lia].
  set (s := chunk_size - overlap). assert (0 < s) as Hs by lia.
  destruct (num_chunks_spec txt chunk_size overlap Hs) as [Hge _].
  fold s in Hge.
  assert (∀ n, (n ≤ num_chunks txt chunk_size overlap)%nat →
               concat (fresh_part chunk_size overlap
                         <$> (nth_chunk txt chunk_size overlap <$> seq 0 n))
               = take (n * Z.to_nat s) txt) as Hpre.
  { induction n as [|n IH]; intros Hn; [done|].
    rewrite seq_S, !fmap_app, concat_app, IH by lia.
    cbn [fmap list_fmap concat]. rewrite app_nil_r.
    unfold fresh_part. rewrite nth_chunk_text by lia. fold s.
    rewrite take_take, Nat.min_l by lia.
    rewrite take_take_drop. f_equal. lia. }
  rewrite Hpre by done. apply take_ge. unfold len in Hge. nia.
Qed.

(** X4: what neighbours share: the part of a chunk after its first
    [chunk_size - overlap] characters is the first [overlap] characters
    of the next chunk, and these are exactly [overlap] characters when
    the window of the first chunk fits into the text. *)
Theorem neighbours_share_overlap txt chunk_size overlap :
  0 ≤ overlap < chunk_size →
  (∃ cs, returns txt chunk_size overlap cs)
  ∧ ∀ cs, returns txt chunk_size overlap cs →
      ∀ k c c', cs !! k = Some c → cs !! S k = Some c' →
        drop (Z.to_nat (chunk_size - overlap)) (text c)
        = take (Z.to_nat overlap) (text c')
        ∧ (start_char c + chunk_size ≤ len txt →
             len (take (Z.to_nat overlap) (text c')) = overlap).
Proof.
  intros Hov. split; [eexists; apply returns_closed; lia|].
  intros cs Hr. apply returns_inv in Hr as ->; [|lia].
  set (s := chunk_size - overlap). assert (0 < s) as Hs by lia.
  intros k c c' Hc Hc'.
  apply lookup_chunks in Hc as [Hk ->]. apply lookup_chunks in Hc' as [Hk' ->].
  rewrite !nth_chunk_text by lia. fold s.
  rewrite take_take, Nat.min_l by lia.
  rewrite skipn_firstn_comm, drop_drop.
  assert (Z.to_nat chunk_size - Z.to_nat s = Z.to_nat overlap)%nat as -> by lia.
  assert (k * Z.to_nat s + Z.to_nat s = S k * Z.to_nat s)%nat as -> by lia.
  split; [done|].
  intros Hfit. cbn [start_char make_chunk Chunker.nth_chunk] in Hfit.
  fold s in Hfit. unfold len in *.
  rewrite length_take, length_drop. nia.
Qed.

(** X5: a text of at most [chunk_size - overlap] characters gives one chunk,
    the whole text, and a longer one gives at least two. *)
Theorem short_text_single_chunk txt chunk_size overlap :
  0 ≤ overlap < chunk_size → txt ≠ [] →
  (∃ cs, returns txt chunk_size overlap cs)
  ∧ ∀ cs, returns txt chunk_size overlap cs →
      (len txt ≤ chunk_size - overlap
         → cs = [mkChunk 0 txt 0 (len txt) (len txt)])
      ∧ (chunk_size - overlap < len txt → (2 ≤ length cs)%nat).
Proof.
  intros Hov Hne. split; [eexists; apply returns_closed; lia|].
  intros cs Hr. apply returns_inv in Hr as ->; [|lia].
  set (s := chunk_size - overlap). assert (0 < s) as Hs by lia.
  destruct (num_chunks_spec txt chunk_size overlap Hs) as [Hge Hlt].
  fold s in Hge, Hlt.
  assert (0 < len txt) as Hpos by (unfold len; destruct txt; [done|cbn; lia]).
  split.
  - intros Hshort.
    assert (num_chunks txt chunk_size overlap = 1%nat) as Hone.
    { destruct (num_chunks txt chunk_size overlap) as [|[|n]]; [lia|done|].
      specialize (Hlt 1%nat ltac:(lia)). lia. }
    assert (slice txt 0 chunk_size = txt) as Hwhole.
    { rewrite slice_take_drop by lia. cbn [Z.to_nat drop].
      apply take_ge. unfold len in *. lia. }
    rewrite Hone. cbn [seq fmap list_fmap]. subst s.
    unfold Chunker.nth_chunk, make_chunk.
    change (Z.of_nat 0 * (chunk_size - overlap)) with 0.
    change (0 + chunk_size) with chunk_size. rewrite Hwhole.
    destruct (Z.ltb_spec chunk_size (len txt)); [lia|]. done.
  - intros Hlong. rewrite length_fmap, length_seq.
    destruct (num_chunks txt chunk_size overlap) as [|[|n]]; [lia|lia|lia].
Qed.

(** X6: no chunk is empty: each has at least one and at most [chunk_size]
    characters. *)
Theorem chunks_not_empty txt chunk_size overlap :
  0 ≤ overlap < chunk_size →
  (∃ cs, returns txt chunk_size overlap cs)
  ∧ ∀ cs, returns txt chunk_size overlap cs →
      ∀ c, c ∈ cs → text c ≠ [] ∧ 1 ≤ num_chars c ≤ chunk_size.
Proof.
  intros Hov. split; [eexists; apply returns_closed; lia|].
  intros cs Hr. apply returns_inv in Hr as ->; [|lia].
  assert (0 < chunk_size - overlap) as Hs by lia.
  intros c Hc. apply elem_of_chunks in Hc as (k & Hk & ->).
  pose proof (nth_chunk_start txt chunk_size overlap k Hs Hk) as Hst.
  unfold Chunker.nth_chunk in *. cbn [start_char make_chunk] in Hst.
  assert (1 ≤ len (text (make_chunk txt chunk_size (Z.of_nat k)
                           (Z.of_nat k * (chunk_size - overlap)))) ≤ chunk_size)
    as Hlen.
  { rewrite make_chunk_text_len; lia. }
  split; [|exact Hlen].
  intros Hnil. rewrite Hnil in Hlen. unfold len in Hlen. cbn in Hlen. lia.
Qed.

(** The loop runs forever exactly on a non-empty text with
    [chunk_size <= overlap]. *)
Lemma diverges_iff txt chunk_size overlap :
  diverges txt chunk_size overlap ↔ txt ≠ [] ∧ chunk_size ≤ overlap.
Proof.
  split; [|intros [? ?]; by apply chunk_text_diverges].
  intros Hd. split.
  - intros ->. specialize (Hd 0%nat). by rewrite chunk_text_empty in Hd.
  - destruct (Z.le_gt_cases chunk_size overlap) as [|Hlt]; [done|].
    specialize (Hd (length txt)). rewrite chunk_text_closed in Hd; [done|lia|done].
Qed.

Lemma num_chunks_formula txt chunk_size overlap :
  0 < chunk_size - overlap →
  Z.of_nat (num_chunks txt chunk_size overlap)
  = (len txt + (chunk_size - overlap) - 1) / (chunk_size - overlap).
Proof.
  intros Hs. unfold Chunker.num_chunks. rewrite Z2Nat.id; [done|].
  apply Z.div_pos; unfold len; lia.
Qed.
End Windows.

(** ** Concrete runs *)

Lemma chunk_count_witness :
  1 < 4
  ∧ (∃ cs, returns (str "abcdefghij") 4 1 cs)
  ∧ ∀ cs, returns (str "abcdefghij") 4 1 cs →
      Z.of_nat (length cs) = (len (str "abcdefghij") + (4 - 1) - 1) / (4 - 1)
      ∧ (length cs ≤ length (str "abcdefghij"))%nat
      ∧ (cs = [] ↔ str "abcdefghij" = []).
Proof. split; [lia|]. apply chunk_count. lia. Defined.

Lemma covered_offsets_witness :
  -1 < 2
  ∧ (∃ cs, returns (str "abcdef") 2 (-1) cs)
  ∧ ∀ cs, returns (str "abcdef") 2 (-1) cs →
      ∀ i, covered cs i ↔ 0 ≤ i < len (str "abcdef") ∧ i mod (2 - -1) < 2.
Proof. split; [lia|]. apply covered_offsets. lia. Defined.

Lemma fresh_parts_rebuild_text_witness :
  0 ≤ 1 < 4
  ∧ (∃ cs, returns (str "abcdefghij") 4 1 cs)
  ∧ ∀ cs, returns (str "abcdefghij") 4 1 cs →
      concat (fresh_part 4 1 <$> cs) = str "abcdefghij".
Proof. split; [lia|]. apply fresh_parts_rebuild_text. lia. Defined.

Lemma neighbours_share_overlap_witness :
  0 ≤ 1 < 4
  ∧ (∃ cs, returns (str "abcdefghij") 4 1 cs)
  ∧ ∀ cs, returns (str "abcdefghij") 4 1 cs →
      ∀ k c c', cs !! k = Some c → cs !! S k = Some c' →
        drop (Z.to_nat (4 - 1)) (text c) = take (Z.to_nat 1) (text c')
        ∧ (start_char c + 4 ≤ len (str "abcdefghij") →
             len (take (Z.to_nat 1) (text c')) = 1).
Proof. split; [lia|]. apply neighbours_share_overlap. lia. Defined.

Lemma short_text_single_chunk_witness :
  (0 ≤ 1 < 4 ∧ str "abc" ≠ [])
  ∧ (∃ cs, returns (str "abc") 4 1 cs)
  ∧ ∀ cs, returns (str "abc") 4 1 cs →
      (len (str "abc") ≤ 4 - 1
         → cs = [mkChunk 0 (str "abc") 0 (len (str "abc")) (len (str "abc"))])
      ∧ (4 - 1 < len (str "abc") → (2 ≤ length cs)%nat).
Proof.
  split; [split; [lia|discriminate]|].
  apply short_text_single_chunk; [lia|discriminate].
Defined.

Lemma chunks_not_empty_witness :
  0 ≤ 1 < 4
  ∧ (∃ cs, returns (str "abcdefghij") 4 1 cs)
  ∧ ∀ cs, returns (str "abcdefghij") 4 1 cs →
      ∀ c, c ∈ cs → text c ≠ [] ∧ 1 ≤ num_chars c ≤ 4.
Proof. split; [lia|]. apply chunks_not_empty. lia. Defined.

End ChunkerMore.

(** * Further properties of the endpoints *)

Module ApiMore.
Import PySlice Api ApiFacts.

Local Open Scope string_scope.
Local Open Scope Z_scope.

(** ** Strings *)

Lemma append_cons x (a b : string) : String x a ++ b = String x (a ++ b).
Proof. reflexivity. Qed.

Lemma append_nil_l (b : string) : "" ++ b = b.
Proof. reflexivity. Qed.

Lemma strlen_cons x (a : string) : strlen (String x a) = 1 + strlen a.
Proof. unfold strlen. cbn [String.length]. lia. Qed.

Lemma strlen_app (a b : string) : strlen (a ++ b) = strlen a + strlen b.
Proof.
  induction a as [|c a IH]; [done|].
  rewrite append_cons, !strlen_cons, IH. lia.
Qed.

Lemma strlen_nonneg (a : string) : 0 ≤ strlen a.
Proof. unfold strlen. lia. Qed.

Lemma strlen_zero (a : string) : strlen a = 0 ↔ a = "".
Proof. unfold strlen. destruct a; cbn; split; (done || lia). Qed.

Lemma length_list_ascii_of_string (a : string) :
  length (list_ascii_of_string a) = String.length a.
Proof. induction a as [|c a IH]; cbn; [done|by rewrite IH]. Qed.

Lemma append_assoc (a b c : string) : (a ++ b) ++ c = a ++ (b ++ c).
Proof. induction a as [|x a IH]; [done|]. by rewrite !append_cons, IH. Qed.

Lemma append_nil_r (a : string) : a ++ "" = a.
Proof. induction a as [|x a IH]; [done|]. by rewrite append_cons, IH. Qed.

(** *** [replace] *)

Lemma length_replace old new (s : string) :
  String.length (replace old new s) = String.length s.
Proof. induction s as [|c s IH]; cbn; [done|by rewrite IH]. Qed.

Lemma substring_replace old new (s : string) : ∀ n m,
  substring n m (replace old new s) = replace old new (substring n m s).
Proof.
  induction s as [|c s IH]; intros [|n] [|m]; cbn; try done.
  - by rewrite IH.
Qed.

Lemma replace_absent old new (s : string) :
  old ∉ list_ascii_of_string s → replace old new s = s.
Proof.
  induction s as [|c s IH]; cbn; [done|].
  intros Hnot. apply not_elem_of_cons in Hnot as [Hne Hnot].
  rewrite IH by done. destruct (Ascii.eqb_spec c old); congruence.
Qed.

Lemma replace_removes old new (s : string) :
  new ≠ old → old ∉ list_ascii_of_string (replace old new s).
Proof.
  intros Hne. induction s as [|c s IH]; cbn; [apply not_elem_of_nil|].
  apply not_elem_of_cons. split; [|done].
  destruct (Ascii.eqb_spec c old); congruence.
Qed.

(** Comparing with a text that has neither the old nor the new
    character gives the same answer before and after the replacement. *)
Lemma eqb_replace old new (t : string) : ∀ s,
  old ∉ list_ascii_of_string t → new ∉ list_ascii_of_string t →
  String.eqb (replace old new s) t = String.eqb s t.
Proof.
  induction t as [|d t IH]; intros [|c s] Hold Hnew; cbn; try done.
  cbn in Hold, Hnew.
  apply not_elem_of_cons in Hold as [Ho Hold].
  apply not_elem_of_cons in Hnew as [Hn Hnew].
  rewrite IH by done. f_equal.
  destruct (Ascii.eqb_spec c old) as [->|]; [|done].
  destruct (Ascii.eqb_spec new d), (Ascii.eqb_spec old d); congruence.
Qed.

Lemma endswith_replace old new (s t : string) :
  old ∉ list_ascii_of_string t → new ∉ list_ascii_of_string t →
  endswith (replace old new s) t = endswith s t.
Proof.
  intros Hold Hnew. unfold endswith.
  by rewrite length_replace, substring_replace, eqb_replace.
Qed.

Lemma pdf_suffix_safe :
  (" "%char ∉ list_ascii_of_string ".pdf")
  ∧ ("_"%char ∉ list_ascii_of_string ".pdf").
Proof.
  split; cbn; rewrite !not_elem_of_cons;
    repeat split; (discriminate || apply not_elem_of_nil).
Qed.

(** X7: the sanitized file name: as long as the original, without a space,
    untouched by a second sanitization, and with the [.pdf] suffix exactly
    when the original has it. *)
Theorem safe_filename_properties (name : string) :
  String.length (replace " " "_" name) = String.length name
  ∧ (" "%char ∉ list_ascii_of_string (replace " " "_" name))
  ∧ replace " " "_" (replace " " "_" name) = replace " " "_" name
  ∧ endswith (replace " " "_" name) ".pdf" = endswith name ".pdf".
Proof.
  split; [apply length_replace|]. split; [by apply replace_removes|].
  split; [apply replace_absent; by apply replace_removes|].
  apply endswith_replace; apply pdf_suffix_safe.
Qed.

(** *** Prefixes *)

Lemma string_of_take (s : string) : ∀ k,
  string_of_list_ascii (take k (list_ascii_of_string s)) = substring 0 k s.
Proof.
  induction s as [|c s IH]; intros [|k]; cbn; try done.
  by rewrite IH.
Qed.

Lemma prefix_slice_substring (s : string) n :
  0 ≤ n → prefix_slice s n = substring 0 (Z.to_nat n) s.
Proof.
  intros Hn. unfold prefix_slice.
  rewrite ChunkerMore.slice_take_drop by (unfold Chunker.len; lia).
  cbn [Z.to_nat drop]. rewrite Z.sub_0_r. apply string_of_take.
Qed.

Lemma substring_all (s : string) k :
  (String.length s ≤ k)%nat → substring 0 k s = s.
Proof.
  revert k. induction s as [|c s IH]; intros [|k] Hk; cbn in *; try done; [lia|].
  rewrite IH by lia. done.
Qed.

Lemma length_substring_prefix (s : string) k :
  (k ≤ String.length s)%nat → String.length (substring 0 k s) = k.
Proof.
  revert k. induction s as [|c s IH]; intros [|k] Hk; cbn in *; try done; [lia|].
  rewrite IH by lia. done.
Qed.

(** *** Words *)

(** A space character ends a word. *)
Lemma count_words_app_space (s t : string) ws : ∀ b,
  isspace ws = true →
  count_words b (s ++ String ws t) = count_words b s + count_words false t.
Proof.
  intros b Hws. revert b. induction s as [|c s IH]; intros b.
  - rewrite append_nil_l. cbn [count_words]. by rewrite Hws.
  - rewrite append_cons. cbn [count_words].
    destruct (isspace c); rewrite IH; lia.
Qed.

(** The digits of a number continue a word, or start one. *)
Lemma count_words_digits (d : Decimal.uint) : ∀ b t,
  count_words b (NilEmpty.string_of_uint d ++ t)
  = match d with
    | Decimal.Nil => count_words b t
    | _ => (if b then 0 else 1) + count_words true t
    end.
Proof.
  induction d as [|d IH|d IH|d IH|d IH|d IH|d IH|d IH|d IH|d IH|d IH];
    intros b t; [done|..];
    cbn [NilEmpty.string_of_uint]; rewrite append_cons;
    cbn [count_words];
    match goal with
    | |- context [isspace ?c] => change (isspace c) with false
    end;
    cbv iota; rewrite IH; destruct d; lia.
Qed.

Lemma to_uint_not_nil (n : nat) : Nat.to_uint n ≠ Decimal.Nil.
Proof.
  intros Hnil. pose proof (DecimalNat.Unsigned.of_to n) as Hn.
  rewrite Hnil in Hn. cbn in Hn. subst n. discriminate.
Qed.

Lemma strlen_decimal (n : nat) : 1 ≤ strlen (decimal n).
Proof.
  unfold decimal. pose proof (to_uint_not_nil n) as Hn.
  destruct (Nat.to_uint n); [done|..];
    cbn [NilEmpty.string_of_uint]; rewrite strlen_cons;
    pose proof (strlen_nonneg (NilEmpty.string_of_uint u)); lia.
Qed.

(** *** The text of the pages *)

Lemma join_pages_cons first page_text rest :
  join_pages first (page_text :: rest)
  = String "010"
      ("----Page" ++ String " "
         (decimal (first + 1) ++ "----" ++ String "010"
            (page_text ++ join_pages (S first) rest))).
Proof.
  change (join_pages first (page_text :: rest))
    with ((String "010" ("----Page " ++ decimal (first + 1) ++ "----"
                          ++ String "010" ""))
          ++ page_text ++ join_pages (S first) rest).
  rewrite append_cons, !append_assoc. reflexivity.
Qed.

Lemma join_pages_empty first pages : join_pages first pages = "" ↔ pages = [].
Proof.
  destruct pages; [done|]. rewrite join_pages_cons. done.
Qed.

Lemma count_words_join first pages : ∀ page_text,
  count_words false (page_text ++ join_pages first pages)
  = count_words false page_text + count_words false (join_pages first pages).
Proof.
  intros page_text. destruct pages as [|q rest].
  - cbn [join_pages]. rewrite append_nil_r. cbn [count_words]. lia.
  - rewrite join_pages_cons, count_words_app_space by done. done.
Qed.

Lemma count_words_join_pages pages : ∀ first,
  count_words false (join_pages first pages)
  = 2 * Z.of_nat (length pages)
    + foldr (λ page_text acc, count_words false page_text + acc) 0 pages.
Proof.
  induction pages as [|page_text rest IH]; intros first; [done|].
  rewrite join_pages_cons.
  cbn [count_words]. change (isspace "010") with true. cbv iota.
  rewrite count_words_app_space by done.
  change (count_words false "----Page") with 1.
  unfold decimal. rewrite count_words_digits.
  pose proof (to_uint_not_nil (first + 1)) as Hnil.
  destruct (Nat.to_uint (first + 1)); [done|..];
    rewrite count_words_app_space by done;
    change (count_words true "----") with 0;
    rewrite count_words_join, IH; cbn [length foldr]; lia.
Qed.

Lemma strlen_join_pages pages : ∀ first,
  16 * Z.of_nat (length pages)
  + foldr (λ page_text acc, strlen page_text + acc) 0 pages
  ≤ strlen (join_pages first pages).
Proof.
  induction pages as [|page_text rest IH]; intros first; [done|].
  rewrite join_pages_cons.
  repeat first [rewrite strlen_cons | rewrite strlen_app].
  change (strlen "") with 0.
  pose proof (strlen_decimal (first + 1)). specialize (IH (S first)).
  cbn [length foldr]. lia.
Qed.

(** ** The endpoints *)

Section MoreEndpointFacts.
Variable os : FileSystem.
Variable pdf_reader : list Byte.byte → exception + list string.
Variable str_exn : exception → string.
Implicit Types (fs : files os) (f : UploadFile).

Local Abbreviation extract_text_from_pdf :=
  (Api.extract_text_from_pdf os pdf_reader str_exn).
Local Abbreviation upload_pdf := (Api.upload_pdf os pdf_reader str_exn).
Local Abbreviation extract_text := (Api.extract_text os pdf_reader str_exn).
Local Abbreviation chunk_pdf := (Api.chunk_pdf os pdf_reader str_exn).

(** The extraction the reader's pages give. *)
Local Abbreviation extraction_of pages :=
  {| full_text := join_pages 0 pages;
     num_pages := Z.of_nat (length pages);
     num_words := count_words false (join_pages 0 pages);
     num_chars := strlen (join_pages 0 pages) |}.

(** Extraction of a readable file, by the answer of the reader. *)
Lemma extract_text_from_pdf_lookup fs path data :
  read_file os fs path = inr data →
  extract_text_from_pdf fs path
  = match pdf_reader data with
    | inr pages => Return (extraction_of pages)
    | inl e =>
        Raise (HTTPException 500
                 ("Error extracting text from PDF: " ++ str_exn e))
    end.
Proof. intros Hfs. unfold Api.extract_text_from_pdf. by rewrite Hfs. Qed.

(** A returned extraction comes from the bytes read and their pages. *)
Lemma extract_text_from_pdf_return fs path r :
  extract_text_from_pdf fs path = Return r →
  ∃ data pages, read_file os fs path = inr data
    ∧ pdf_reader data = inr pages ∧ r = extraction_of pages.
Proof.
  unfold Api.extract_text_from_pdf.
  destruct (read_file os fs path) as [e|data]; [done|].
  destruct (pdf_reader data) as [e|pages] eqn:Hread; [done|].
  intros [= <-]. eauto.
Qed.

(** An accepted upload whose write succeeds, in a well-behaved file
    system: the state it leaves and the answer. *)
Lemma upload_pdf_written fs f fs' :
  well_behaved os →
  parsed_upload f → endswith (filename f) ".pdf" = true → file f ≠ [] →
  write_file os fs (path_div os UPLOAD_DIR (replace " " "_" (filename f)))
    (file f) = (fs', None) →
  upload_pdf fs f
  = (fs',
     match pdf_reader (file f) with
     | inr pages =>
         let t := join_pages 0 pages in
         Return
           {| up_message := "PDF uploaded and processed successfully!";
              up_filename := replace " " "_" (filename f);
              size_kb := round_kb (Z.of_nat (length (file f)));
              saved_path :=
                path_div os UPLOAD_DIR (replace " " "_" (filename f));
              up_extraction :=
                {| sum_num_pages := Z.of_nat (length pages);
                   sum_num_words := count_words false t;
                   sum_num_chars := strlen t;
                   text_preview :=
                     if 500 <? strlen t then prefix_slice t 500 ++ "..."
                     else prefix_slice t 500 |};
              up_status := "success" |}
     | inl e =>
         Raise (HTTPException 500
                  ("Error uploading file: "
                   ++ str_exn (HTTPException 500
                        ("Error extracting text from PDF: " ++ str_exn e))))
     end).
Proof.
  intros Hos Hsize Hpdf Hne Hw. unfold Api.upload_pdf.
  rewrite Hpdf. cbn [negb].
  rewrite bool_decide_eq_false_2 by (by rewrite (parsed_upload_empty f Hsize)).
  rewrite Hw.
  rewrite (extract_text_from_pdf_lookup _ _ (file f))
    by (by eapply read_after_write).
  destruct (pdf_reader (file f)); [done|].
  by rewrite (getsize_after_write os Hos _ _ _ _ Hw).
Qed.

(** X8: upload, then extract, in a well-behaved file system: the file that
    an accepted upload has written is found by [extract_text] under the
    file name of the answer.  Extraction answers with the status of the
    upload, and after a successful upload it reports the page, word and
    character counts of the upload's summary. *)
Theorem upload_then_extract fs f fs' :
  well_behaved os →
  parsed_upload f → endswith (filename f) ".pdf" = true → file f ≠ [] →
  let safe_filename := replace " " "_" (filename f) in
  write_file os fs (path_div os UPLOAD_DIR safe_filename) (file f)
  = (fs', None) →
  fst (upload_pdf fs f) = fs'
  ∧ read_file os fs' (path_div os UPLOAD_DIR safe_filename) = inr (file f)
  ∧ status_of (extract_text fs' safe_filename)
    = status_of (snd (upload_pdf fs f))
  ∧ ∀ r, snd (upload_pdf fs f) = Return r →
      up_filename r = safe_filename
      ∧ ∃ e, extract_text fs' (up_filename r) = Return e
          ∧ ex_filename e = safe_filename
          ∧ num_pages (ex_extraction e) = sum_num_pages (up_extraction r)
          ∧ num_words (ex_extraction e) = sum_num_words (up_extraction r)
          ∧ num_chars (ex_extraction e) = sum_num_chars (up_extraction r).
Proof.
  intros Hos Hsize Hpdf Hne safe_filename Hw.
  rewrite (upload_pdf_written fs f fs') by done. fold safe_filename.
  pose proof (read_after_write os Hos _ _ _ _ Hw) as Hread.
  assert (extract_text fs' safe_filename
          = match pdf_reader (file f) with
            | inr pages =>
                Return {| ex_filename := safe_filename;
                          ex_extraction := extraction_of pages;
                          ex_status := "success" |}
            | inl e =>
                Raise (HTTPException 500
                         ("Error extracting text from PDF: " ++ str_exn e))
            end) as Hex.
  { unfold Api.extract_text.
    rewrite (exists_after_write os Hos _ _ _ _ Hw).
    rewrite (extract_text_from_pdf_lookup _ _ (file f)) by done.
    unfold safe_filename.
    rewrite endswith_replace, Hpdf by apply pdf_suffix_safe. cbn [negb].
    by destruct (pdf_reader (file f)). }
  cbn [fst snd]. split; [done|]. split; [done|].
  destruct (pdf_reader (file f)) as [e|pages].
  - split; [by rewrite Hex|]. intros r [=].
  - split; [by rewrite Hex|]. intros r [= <-]. cbn.
    split; [done|]. rewrite Hex. eexists. split; [done|]. done.
Qed.

(** X9: the preview of a successful upload is cut from the text of the
    pages that the reader found in the written file: the whole text when
    it has at most 500 characters, and otherwise its first 500
    characters followed by three dots, 503 characters in all. *)
Theorem upload_text_preview fs f r :
  snd (upload_pdf fs f) = Return r →
  ∃ data pages,
    read_file os (fst (upload_pdf fs f)) (saved_path r) = inr data
    ∧ pdf_reader data = inr pages
    ∧ sum_num_chars (up_extraction r) = strlen (join_pages 0 pages)
    ∧ (strlen (join_pages 0 pages) ≤ 500 →
         text_preview (up_extraction r) = join_pages 0 pages)
    ∧ (500 < strlen (join_pages 0 pages) →
         text_preview (up_extraction r)
         = substring 0 500 (join_pages 0 pages) ++ "..."
         ∧ strlen (text_preview (up_extraction r)) = 503).
Proof.
  unfold Api.upload_pdf.
  destruct (negb _); [done|]. destruct (bool_decide _); [done|].
  destruct (write_file os fs _ (file f)) as [fs' [e|]]; [done|].
  destruct (Api.extract_text_from_pdf os pdf_reader str_exn fs' _)
    as [er|e] eqn:Hex; [|done].
  destruct (getsize os fs' _) as [e|file_size]; [done|].
  cbn [fst snd]. intros [= <-]. cbn [saved_path up_extraction text_preview
                                      sum_num_chars].
  apply extract_text_from_pdf_return in Hex as (data & pages & Hread & Hpages & ->).
  exists data, pages. split; [done|]. split; [done|]. split; [done|].
  cbn [full_text]. rewrite prefix_slice_substring by lia.
  change (Z.to_nat 500) with 500%nat.
  set (t := join_pages 0 pages). unfold strlen.
  split; intros Hlen.
  - destruct (Z.ltb_spec 500 (Z.of_nat (String.length t))); [lia|].
    apply substring_all. lia.
  - destruct (Z.ltb_spec 500 (Z.of_nat (String.length t))); [|lia].
    split; [done|].
    change (Z.of_nat (String.length ?s)) with (strlen s).
    rewrite strlen_app. unfold strlen.
    rewrite length_substring_prefix by lia. done.
Qed.

(** X11: no protection against overwriting: an accepted upload whose file
    name agrees after sanitization with that of an earlier one (the same
    name, or names that differ in spaces against underscores) writes to
    the path the earlier one wrote to, and in a well-behaved file system
    that path then holds the second payload. *)
Theorem upload_overwrites fs f g fs1 fs2 :
  well_behaved os →
  parsed_upload f → endswith (filename f) ".pdf" = true → file f ≠ [] →
  parsed_upload g → endswith (filename g) ".pdf" = true → file g ≠ [] →
  replace " " "_" (filename f) = replace " " "_" (filename g) →
  let file_path := path_div os UPLOAD_DIR (replace " " "_" (filename f)) in
  write_file os fs file_path (file f) = (fs1, None) →
  write_file os fs1 file_path (file g) = (fs2, None) →
  read_file os (fst (upload_pdf fs f)) file_path = inr (file f)
  ∧ fst (upload_pdf (fst (upload_pdf fs f)) g) = fs2
  ∧ read_file os fs2 file_path = inr (file g).
Proof.
  intros Hos Hf1 Hf2 Hf3 Hg1 Hg2 Hg3 Hsame file_path Hw1 Hw2.
  rewrite (upload_pdf_written fs f fs1) by done. cbn [fst].
  rewrite (upload_pdf_written fs1 g fs2) by (by rewrite <- ?Hsame).
  cbn [fst]. split; [by eapply read_after_write|].
  split; [done|]. by eapply read_after_write.
Qed.

(** X12: the answers of [extract_text], by status: 404 exactly when
    [exists()] is false for the path; 200 exactly when the path exists,
    the name ends in [.pdf], the file can be read and the reader finds
    its pages, and then the answer names the file and carries the text
    and the page count of what was read; 500 exactly when [exists()]
    raises, or the path exists, the name ends in [.pdf] and reading the
    file or its pages fails.  No status but 200, 400, 404, 500 occurs. *)
Theorem extract_text_statuses fs filename :
  let file_path := path_div os UPLOAD_DIR filename in
  (status_of (extract_text fs filename) = 404
   ↔ path_exists os fs file_path = inr false)
  ∧ (status_of (extract_text fs filename) = 200
     ↔ ∃ data pages, path_exists os fs file_path = inr true
         ∧ endswith filename ".pdf" = true
         ∧ read_file os fs file_path = inr data
         ∧ pdf_reader data = inr pages)
  ∧ (status_of (extract_text fs filename) = 500
     ↔ (∃ e, path_exists os fs file_path = inl e)
       ∨ (path_exists os fs file_path = inr true
          ∧ endswith filename ".pdf" = true
          ∧ ((∃ e, read_file os fs file_path = inl e)
             ∨ ∃ data e, read_file os fs file_path = inr data
                 ∧ pdf_reader data = inl e)))
  ∧ (∀ r, extract_text fs filename = Return r →
       ex_filename r = filename
       ∧ ∃ data pages, read_file os fs file_path = inr data
           ∧ pdf_reader data = inr pages
           ∧ num_pages (ex_extraction r) = Z.of_nat (length pages)
           ∧ full_text (ex_extraction r) = join_pages 0 pages)
  ∧ status_of (extract_text fs filename) ∈ [200; 400; 404; 500].
Proof.
  intros file_path. unfold Api.extract_text, Api.extract_text_from_pdf.
  fold file_path.
  assert (∀ x : Z, x ∈ [200; 400; 404; 500]
                   ↔ x = 200 ∨ x = 400 ∨ x = 404 ∨ x = 500) as Hin.
  { intros x. rewrite !elem_of_cons, elem_of_nil. tauto. }
  rewrite Hin.
  destruct (path_exists os fs file_path) as [e|[|]] eqn:Hfs;
    [|destruct (endswith filename ".pdf"); cbn [negb];
      [destruct (read_file os fs file_path) as [e|data] eqn:Hfile;
       [|destruct (pdf_reader data) as [e|pages] eqn:Hread]|]|];
    cbn [status_of];
    (repeat split; try done; try tauto; try (by eauto 10);
     try (intros; destruct_or?; destruct_and?; simplify_eq; done);
     try (intros (? & ? & ? & ? & ? & ?); simplify_eq; congruence);
     try (intros [(? & ?)|(? & ? & [(? & ?)|(? & ? & ? & ?)])];
          simplify_eq; congruence);
     try (intros; simplify_eq; eauto 10)).
Qed.

(** X13: the word count of an extraction counts the page markers: two
    words for each page on top of the words of the pages. *)
Theorem extraction_word_count fs path data pages :
  read_file os fs path = inr data → pdf_reader data = inr pages →
  ∃ r, extract_text_from_pdf fs path = Return r
    ∧ num_pages r = Z.of_nat (length pages)
    ∧ num_words r
      = 2 * num_pages r
        + foldr (λ page_text acc, count_words false page_text + acc) 0 pages.
Proof.
  intros Hfs Hread.
  rewrite (extract_text_from_pdf_lookup _ _ data), Hread by done.
  eexists. split; [done|]. split; [done|]. apply count_words_join_pages.
Qed.

(** X14: the character count of an extraction is the length of its text
    and counts the page markers: at least 16 characters for each page on
    top of the characters of the pages.  The text is empty only for a PDF
    without pages. *)
Theorem extraction_char_count fs path data pages :
  read_file os fs path = inr data → pdf_reader data = inr pages →
  ∃ r, extract_text_from_pdf fs path = Return r
    ∧ num_chars r = strlen (full_text r)
    ∧ 16 * num_pages r
      + foldr (λ page_text acc, strlen page_text + acc) 0 pages
      ≤ num_chars r
    ∧ (full_text r = "" ↔ pages = []).
Proof.
  intros Hfs Hread.
  rewrite (extract_text_from_pdf_lookup _ _ data), Hread by done.
  eexists. split; [done|]. split; [done|].
  split; [apply strlen_join_pages|apply join_pages_empty].
Qed.

(** What [extract_text] returns is the extraction of the file at the
    path. *)
Lemma extract_text_return fs filename r :
  extract_text fs filename = Return r →
  path_exists os fs (path_div os UPLOAD_DIR filename) = inr true
  ∧ endswith filename ".pdf" = true
  ∧ extract_text_from_pdf fs (path_div os UPLOAD_DIR filename)
    = Return (ex_extraction r)
  ∧ num_chars (ex_extraction r) = strlen (full_text (ex_extraction r)).
Proof.
  unfold Api.extract_text.
  destruct (path_exists os fs _) as [e|[|]]; [done| |done].
  destruct (endswith filename ".pdf"); cbn [negb]; [|done].
  destruct (Api.extract_text_from_pdf os pdf_reader str_exn fs _)
    as [er|e] eqn:Hex; [|done].
  intros [= <-]. cbn [ex_extraction].
  apply extract_text_from_pdf_return in Hex as (? & ? & _ & _ & ->). done.
Qed.

(** X15: [chunk_pdf] fails as [extract_text] does, whatever the chunking
    parameters are, and without entering the chunking loop. *)
Theorem chunk_pdf_fails_as_extract_text fs filename e :
  extract_text fs filename = Raise e →
  ∀ fuel chunk_size overlap,
    chunk_pdf fuel fs filename chunk_size overlap = Some (Raise e).
Proof.
  unfold Api.extract_text, Api.chunk_pdf. intros Hex fuel chunk_size overlap.
  destruct (path_exists os fs _) as [e'|[|]];
    [by injection Hex as <-| |by injection Hex as <-].
  destruct (negb (endswith _ _)); [by injection Hex as <-|].
  destruct (Api.extract_text_from_pdf _ _ _ _ _); [done|].
  by injection Hex as <-.
Qed.

(** X16: where [extract_text] succeeds and [overlap < chunk_size],
    [chunk_pdf] succeeds within as many iterations as the text has
    characters.  Its answer echoes the parameters, carries the chunks of
    the extracted text, and reports the character count of the extraction
    as [original_length] and
    [ceil(original_length / (chunk_size - overlap))] as [total_chunks]. *)
Theorem chunk_pdf_chunks_the_extraction fs filename r chunk_size overlap fuel :
  extract_text fs filename = Return r →
  overlap < chunk_size →
  (String.length (full_text (ex_extraction r)) ≤ fuel)%nat →
  ∃ a, chunk_pdf fuel fs filename chunk_size overlap = Some (Return a)
    ∧ ch_filename a = filename
    ∧ ch_chunk_size a = chunk_size ∧ ch_overlap a = overlap
    ∧ Chunker.chunk_text fuel
        (list_ascii_of_string (full_text (ex_extraction r))) chunk_size overlap
      = Some (ch_chunks a)
    ∧ original_length a = num_chars (ex_extraction r)
    ∧ total_chunks a = Z.of_nat (length (ch_chunks a))
    ∧ total_chunks a
      = (original_length a + (chunk_size - overlap) - 1)
        / (chunk_size - overlap).
Proof.
  intros Hex Hov Hfuel.
  apply extract_text_return in Hex as (Hstored & Hpdf & Hext & Hchars).
  unfold Api.chunk_pdf.
  rewrite Hstored, Hpdf, Hext. cbn [negb].
  rewrite ChunkerFacts.chunk_text_closed
    by (rewrite ?length_list_ascii_of_string; done).
  cbn [mbind option_bind]. eexists. split; [done|]. cbn.
  repeat split; try done.
  rewrite length_fmap, length_seq, ChunkerMore.num_chunks_formula by lia.
  rewrite Hchars. unfold Chunker.len, strlen.
  by rewrite length_list_ascii_of_string.
Qed.

(** X17: [chunk_pdf] never answers exactly when the path exists, the name
    ends in [.pdf], the reader finds at least one page in the file read,
    and [chunk_size <= overlap]. *)
Theorem chunk_pdf_hangs_iff fs filename chunk_size overlap :
  (∀ fuel, chunk_pdf fuel fs filename chunk_size overlap = None)
  ↔ ∃ data pages,
      path_exists os fs (path_div os UPLOAD_DIR filename) = inr true
      ∧ endswith filename ".pdf" = true
      ∧ read_file os fs (path_div os UPLOAD_DIR filename) = inr data
      ∧ pdf_reader data = inr pages
      ∧ pages ≠ [] ∧ chunk_size ≤ overlap.
Proof.
  unfold Api.chunk_pdf.
  destruct (path_exists os fs _) as [e|[|]] eqn:Hfs.
  - split; [intros H; by specialize (H 0%nat)|].
    intros (? & ? & ? & _). done.
  - destruct (endswith filename ".pdf"); cbn [negb].
    + destruct (read_file os fs _) as [e|data] eqn:Hfile.
      { unfold Api.extract_text_from_pdf. rewrite Hfile.
        split; [intros H; by specialize (H 0%nat)|].
        intros (? & ? & _ & _ & ? & _). done. }
      rewrite (extract_text_from_pdf_lookup _ _ data) by done.
      destruct (pdf_reader data) as [e|pages] eqn:Hread.
      * split; [intros H; by specialize (H 0%nat)|].
        intros (? & ? & _ & _ & [= <-] & ? & _). congruence.
      * cbn [full_text].
        pose proof (ChunkerMore.diverges_iff
                      (list_ascii_of_string (join_pages 0 pages))
                      chunk_size overlap) as Hdiv.
        assert (list_ascii_of_string (join_pages 0 pages) ≠ [] ↔ pages ≠ [])
          as Hne.
        { rewrite <- join_pages_empty with (first := 0%nat).
          destruct (join_pages 0 pages); cbn; split; congruence. }
        rewrite Hne in Hdiv. split.
        -- intros Hnone. exists data, pages.
           assert (Chunker.diverges
                     (list_ascii_of_string (join_pages 0 pages))
                     chunk_size overlap) as Hd.
           { intros fuel. specialize (Hnone fuel).
             by destruct (Chunker.chunk_text _ _ _ _). }
           apply Hdiv in Hd as [? ?]. repeat split; done.
        -- intros (data' & pages' & _ & _ & [= <-] & Hread' & Hpages & Hle) fuel.
           rewrite Hread in Hread'. injection Hread' as <-.
           assert (Chunker.diverges
                     (list_ascii_of_string (join_pages 0 pages))
                     chunk_size overlap) as Hd by (apply Hdiv; done).
           by rewrite Hd.
    + split; [intros H; by specialize (H 0%nat)|].
      intros (? & ? & _ & ? & _). done.
  - split; [intros H; by specialize (H 0%nat)|].
    intros (? & ? & ? & _). done.
Qed.
End MoreEndpointFacts.

(** ** Concrete runs *)

Lemma upload_then_extract_witness :
  (well_behaved sample_os
   ∧ parsed_upload upload_real_pdf
   ∧ endswith (filename upload_real_pdf) ".pdf" = true
   ∧ file upload_real_pdf ≠ []
   ∧ write_file sample_os ∅ (path_div sample_os UPLOAD_DIR "my_notes.pdf")
       (file upload_real_pdf)
     = (sample_store, None))
  ∧ let answer :=
      Api.upload_pdf sample_os sample_pdf_reader sample_str_exn ∅
        upload_real_pdf in
    fst answer = sample_store
    ∧ read_file sample_os sample_store
        (path_div sample_os UPLOAD_DIR "my_notes.pdf")
      = inr (bytes "%PDF-1.4")
    ∧ status_of (Api.extract_text sample_os sample_pdf_reader sample_str_exn
                   sample_store "my_notes.pdf")
      = status_of (snd answer)
    ∧ ∀ r, snd answer = Return r →
        up_filename r = "my_notes.pdf"
        ∧ ∃ e, Api.extract_text sample_os sample_pdf_reader sample_str_exn
                 sample_store (up_filename r) = Return e
            ∧ ex_filename e = "my_notes.pdf"
            ∧ num_pages (ex_extraction e) = sum_num_pages (up_extraction r)
            ∧ num_words (ex_extraction e) = sum_num_words (up_extraction r)
            ∧ num_chars (ex_extraction e) = sum_num_chars (up_extraction r).
Proof.
  split.
  - split; [exact sample_os_well_behaved|]. split; [reflexivity|].
    split; [reflexivity|]. split; [discriminate|reflexivity].
  - apply (upload_then_extract sample_os sample_pdf_reader sample_str_exn ∅
             upload_real_pdf sample_store sample_os_well_behaved);
      [reflexivity|reflexivity|discriminate|reflexivity].
Defined.

Lemma upload_text_preview_witness :
  let answer :=
    Api.upload_pdf sample_os sample_pdf_reader sample_str_exn ∅
      upload_real_pdf in
  ∃ r, snd answer = Return r
    ∧ ∃ data pages,
        read_file sample_os (fst answer) (saved_path r) = inr data
        ∧ sample_pdf_reader data = inr pages
        ∧ sum_num_chars (up_extraction r) = strlen (join_pages 0 pages)
        ∧ (strlen (join_pages 0 pages) ≤ 500 →
             text_preview (up_extraction r) = join_pages 0 pages)
        ∧ (500 < strlen (join_pages 0 pages) →
             text_preview (up_extraction r)
             = substring 0 500 (join_pages 0 pages) ++ "..."
             ∧ strlen (text_preview (up_extraction r)) = 503).
Proof.
  cbv zeta. eexists. split; [vm_compute; reflexivity|].
  apply (upload_text_preview sample_os sample_pdf_reader sample_str_exn ∅
           upload_real_pdf).
  vm_compute. reflexivity.
Defined.

Lemma upload_overwrites_witness :
  let file_path := path_div sample_os UPLOAD_DIR "my_notes.pdf" in
  let second : files sample_os :=
    <[["app"; "uploads"; "my_notes.pdf"] := bytes "%PDF-1.7x"]> sample_store in
  (well_behaved sample_os
   ∧ (parsed_upload upload_real_pdf
      ∧ endswith (filename upload_real_pdf) ".pdf" = true
      ∧ file upload_real_pdf ≠ [])
   ∧ (parsed_upload upload_real_pdf_again
      ∧ endswith (filename upload_real_pdf_again) ".pdf" = true
      ∧ file upload_real_pdf_again ≠ [])
   ∧ replace " " "_" (filename upload_real_pdf)
     = replace " " "_" (filename upload_real_pdf_again)
   ∧ write_file sample_os ∅ file_path (file upload_real_pdf)
     = (sample_store, None)
   ∧ write_file sample_os sample_store file_path (file upload_real_pdf_again)
     = (second, None))
  ∧ read_file sample_os
      (fst (Api.upload_pdf sample_os sample_pdf_reader sample_str_exn ∅
              upload_real_pdf)) file_path
    = inr (file upload_real_pdf)
  ∧ fst (Api.upload_pdf sample_os sample_pdf_reader sample_str_exn
           (fst (Api.upload_pdf sample_os sample_pdf_reader sample_str_exn ∅
                   upload_real_pdf))
           upload_real_pdf_again)
    = second
  ∧ read_file sample_os second file_path = inr (file upload_real_pdf_again).
Proof.
  cbv zeta. split.
  - split; [exact sample_os_well_behaved|].
    repeat split; (reflexivity || discriminate).
  - apply (upload_overwrites sample_os sample_pdf_reader sample_str_exn ∅
             upload_real_pdf upload_real_pdf_again sample_store _
             sample_os_well_behaved);
      (reflexivity || discriminate).
Defined.

Lemma extraction_word_count_witness :
  (read_file sample_os sample_store "uploads/my_notes.pdf"
   = inr (bytes "%PDF-1.4")
   ∧ sample_pdf_reader (bytes "%PDF-1.4") = inr ["Hello world"])
  ∧ ∃ r, Api.extract_text_from_pdf sample_os sample_pdf_reader sample_str_exn
           sample_store "uploads/my_notes.pdf" = Return r
      ∧ num_pages r = 1
      ∧ num_words r = 2 * num_pages r + (2 + 0).
Proof.
  split; [split; reflexivity|].
  apply (extraction_word_count sample_os sample_pdf_reader sample_str_exn
           sample_store "uploads/my_notes.pdf" (bytes "%PDF-1.4")
           ["Hello world"]); reflexivity.
Defined.

Lemma extraction_char_count_witness :
  (read_file sample_os sample_store "uploads/my_notes.pdf"
   = inr (bytes "%PDF-1.4")
   ∧ sample_pdf_reader (bytes "%PDF-1.4") = inr ["Hello world"])
  ∧ ∃ r, Api.extract_text_from_pdf sample_os sample_pdf_reader sample_str_exn
           sample_store "uploads/my_notes.pdf" = Return r
      ∧ num_chars r = strlen (full_text r)
      ∧ 16 * num_pages r + (11 + 0) ≤ num_chars r
      ∧ (full_text r = "" ↔ ["Hello world"] = []).
Proof.
  split; [split; reflexivity|].
  apply (extraction_char_count sample_os sample_pdf_reader sample_str_exn
           sample_store "uploads/my_notes.pdf" (bytes "%PDF-1.4")
           ["Hello world"]); reflexivity.
Defined.

Lemma chunk_pdf_fails_as_extract_text_witness :
  Api.extract_text sample_os sample_pdf_reader sample_str_exn sample_store
    "my_notes.txt"
  = Raise (HTTPException 404
             "File 'my_notes.txt' not found. Please upload it first.")
  ∧ ∀ fuel chunk_size overlap,
      Api.chunk_pdf sample_os sample_pdf_reader sample_str_exn fuel
        sample_store "my_notes.txt" chunk_size overlap
      = Some (Raise (HTTPException 404
                       "File 'my_notes.txt' not found. Please upload it first.")).
Proof.
  assert (Api.extract_text sample_os sample_pdf_reader sample_str_exn
            sample_store "my_notes.txt"
          = Raise (HTTPException 404
                     "File 'my_notes.txt' not found. Please upload it first."))
    as Hex by (vm_compute; reflexivity).
  split; [exact Hex|].
  exact (chunk_pdf_fails_as_extract_text sample_os sample_pdf_reader
           sample_str_exn sample_store "my_notes.txt" _ Hex).
Defined.

Lemma chunk_pdf_chunks_the_extraction_witness :
  let r := {| ex_filename := "my_notes.pdf";
              ex_extraction :=
                {| full_text := join_pages 0 ["Hello world"];
                   num_pages := 1; num_words := 4; num_chars := 27 |};
              ex_status := "success" |} in
  (Api.extract_text sample_os sample_pdf_reader sample_str_exn sample_store
     "my_notes.pdf" = Return r
   ∧ 2 < 10
   ∧ (String.length (full_text (ex_extraction r)) ≤ 27)%nat)
  ∧ ∃ a, Api.chunk_pdf sample_os sample_pdf_reader sample_str_exn 27
           sample_store "my_notes.pdf" 10 2 = Some (Return a)
      ∧ ch_filename a = "my_notes.pdf"
      ∧ ch_chunk_size a = 10 ∧ ch_overlap a = 2
      ∧ Chunker.chunk_text 27
          (list_ascii_of_string (full_text (ex_extraction r))) 10 2
        = Some (ch_chunks a)
      ∧ original_length a = num_chars (ex_extraction r)
      ∧ total_chunks a = Z.of_nat (length (ch_chunks a))
      ∧ total_chunks a = (original_length a + (10 - 2) - 1) / (10 - 2).
Proof.
  intros r.
  assert (Api.extract_text sample_os sample_pdf_reader sample_str_exn
            sample_store "my_notes.pdf" = Return r) as Hex
    by (vm_compute; reflexivity).
  split; [split; [exact Hex|split; [lia|reflexivity]]|].
  apply (chunk_pdf_chunks_the_extraction sample_os sample_pdf_reader
           sample_str_exn sample_store "my_notes.pdf" r 10 2 27 Hex);
    [lia|reflexivity].
Defined.

End ApiMore.
